(** * milk.supervised.multi: multi-class and multi-label strategies

    A shallow embedding of [milk/supervised/multi.py]: the three learners
    [one_against_rest], [one_against_one] and [one_against_rest_multi], the
    models they build, and the properties of training and of [apply].

    Python objects are embedded with explicit state passing.  A method is a
    computation in a state-and-exception monad whose state is the object the
    method may mutate: the shared base classifier for [train] (its options
    are written by [set_option] before every sub-training), and the model
    itself ([self]) for [apply]. *)

From stdpp Require Import base option list list_numbers sorting gmap sets strings.


(** ** Exceptions *)

(** The exceptions the module can raise.  [Upstream] carries what a
    collaborator (the base classifier, [normaliselabels]) raised; this module
    never catches it. *)
Inductive exn (X : Type) : Type :=
  | ValueError        (* [max] / [argmax] of an empty array *)
  | IndexError        (* index out of range, mask of the wrong length *)
  | AttributeError    (* [None.apply] *)
  | AssertionError (msg : string)
  | Upstream (x : X).
Arguments ValueError {X}.
Arguments IndexError {X}.
Arguments AttributeError {X}.
Arguments AssertionError {X} msg.
Arguments Upstream {X} x.

(** ** The state-and-exception monad *)

Definition M (X S A : Type) : Type := S → (exn X + A) * S.

Definition ret {X S A} (a : A) : M X S A := λ s, (inr a, s).

Definition bind {X S A B} (m : M X S A) (f : A → M X S B) : M X S B :=
  λ s, match m s with
       | (inr a, s') => f a s'
       | (inl e, s') => (inl e, s')
       end.

Definition raise {X S A} (e : exn X) : M X S A := λ s, (inl e, s).

(** A computation that cannot touch the state. *)
Definition lift {X S A} (r : exn X + A) : M X S A := λ s, (r, s).

(** Reading an attribute of [self]. *)
Definition gets {X S A} (f : S → A) : M X S A := λ s, (inr (f s), s).

(** A call into a collaborator: what it raises is wrapped in [Upstream]. *)
Definition upstream {X S A} (f : S → (X + A) * S) : M X S A :=
  λ s, match f s with
       | (inr a, s') => (inr a, s')
       | (inl x, s') => (inl (Upstream x), s')
       end.

Declare Scope monad_scope.
Delimit Scope monad_scope with monad.
Notation "x <- c1 ;; c2" := (bind c1 (λ x, c2))
  (at level 100, c1 at next level, right associativity) : monad_scope.
Notation "c1 ;; c2" := (bind c1 (λ _, c2))
  (at level 100, right associativity) : monad_scope.
Open Scope monad_scope.

(** [for x in xs: body], with the local variables the body assigns carried
    as [acc]. *)
Fixpoint for_acc {X S A B} (xs : list A) (body : A → B → M X S B) (acc : B)
    : M X S B :=
  match xs with
  | [] => ret acc
  | x :: xs' => acc' <- body x acc ;; for_acc xs' body acc'
  end.

(** [for x in xs: body] when the body assigns no local variable. *)
Definition for_each {X S A} (xs : list A) (body : A → M X S ()) : M X S () :=
  for_acc xs (λ x _, body x) ().

(** [assert c, msg] *)
Definition assert {X S} (c : bool) (msg : string) : M X S () :=
  if c then ret () else raise (AssertionError msg).

(** [xrange(a, b)] *)
Definition xrange (a b : nat) : list nat := seq a (b - a).

(** ** Arrays *)

(** [l[i]] for a non-negative [i]. *)
Definition index {X A} (l : list A) (i : nat) : exn X + A :=
  match l !! i with
  | Some a => inr a
  | None => inl IndexError
  end.

(** [a.max()]; numpy raises [ValueError] on an empty array. *)
Definition array_max {X} (a : list nat) : exn X + nat :=
  match a with
  | [] => inl ValueError
  | _ :: _ => inr (max_list a)
  end.

(** [(labels == i).astype(int)] *)
Definition eq_indicator (labels : list nat) (i : nat) : list Z :=
  (λ l, Z.b2z (bool_decide (l = i))) <$> labels.

(** [labels == i] *)
Definition eq_mask (labels : list nat) (i : nat) : list bool :=
  (λ l, bool_decide (l = i)) <$> labels.

(** [m1 | m2] on two masks of one length. *)
Definition or_mask (m1 m2 : list bool) : list bool := zip_with orb m1 m2.

(** [mask.sum()] *)
Definition mask_sum (mask : list bool) : nat :=
  sum_list ((λ b : bool, if b then 1 else 0) <$> mask).

(** [a[mask]] for a boolean mask: the entries at the positions where the mask
    is true.  numpy raises [IndexError] when the mask has not the length of
    the array. *)
Fixpoint mask_filter {A} (a : list A) (mask : list bool) : list A :=
  match a, mask with
  | x :: a', b :: mask' =>
      if b then x :: mask_filter a' mask' else mask_filter a' mask'
  | _, _ => []
  end.

Definition mask_select {X A} (a : list A) (mask : list bool) : exn X + list A :=
  if decide (length mask = length a) then inr (mask_filter a mask)
  else inl IndexError.

(** [np.where(vals)]: the positions of the truthy entries, ascending. *)
Fixpoint where_from (i : nat) (vals : list bool) : list nat :=
  match vals with
  | [] => []
  | v :: vals' =>
      if v then i :: where_from (S i) vals' else where_from (S i) vals'
  end.

Definition np_where (vals : list bool) : list nat := where_from 0 vals.

(** [votes.argmax(0)]: the first position of the maximum; [ValueError] on an
    empty array. *)
Fixpoint argmax_from (best_i best_v i : nat) (l : list nat) : nat :=
  match l with
  | [] => best_i
  | v :: l' =>
      if best_v <? v then argmax_from i v (S i) l'
      else argmax_from best_i best_v (S i) l'
  end.

Definition argmax {X} (l : list nat) : exn X + nat :=
  match l with
  | [] => inl ValueError
  | v :: l' => inr (argmax_from 0 v 1 l')
  end.

(** [votes[i] += 1] *)
Definition incr {X} (votes : list nat) (i : nat) : exn X + list nat :=
  match votes !! i with
  | Some v => inr (<[i := v + 1]> votes)
  | None => inl IndexError
  end.

(** [models[i][j] = model] on a list of lists. *)
Definition table_set {X A} (t : list (list A)) (i j : nat) (a : A)
    : exn X + list (list A) :=
  match t !! i with
  | Some row =>
      if decide (j < length row) then inr (<[i := <[j := a]> row]> t)
      else inl IndexError
  | None => inl IndexError
  end.

(** ** Collaborators *)

(** The classifier interface the learners are built on.  [Base] is the state
    of the base classifier object, which [set_option] and [train] may change;
    a sub-model answers [apply] with a value whose truth is all this module
    looks at.  [option bool] is the keyword [normalisedlabels]: [None] when
    the call does not pass it. *)
Class Classifier (Feat SubModel Base K V X : Type) := {
  base_set_option : K → V → Base → (X + ()) * Base;
  base_train : list Feat → list Z → option bool → Base → (X + SubModel) * Base;
  sub_apply : SubModel → Feat → bool
}.

(** [normaliselabels] of [milk.supervised.classifier]: the integer labels and
    the table of names. *)
Class Normaliser (L X : Type) :=
  normaliselabels : list L → X + (list nat * list L).

(** Modelled from the spec: [normaliselabels] lives in
    [milk/supervised/classifier.py], which is not among the sources.  The
    labels are mapped to a dense zero-based range, [names[i]] is the original
    value mapped to [i], and an empty collection of labels is refused. *)
Definition normalise_spec {L X} (norm : list L → X + (list nat * list L)) : Prop :=
  ∀ labels,
    match norm labels with
    | inl _ => labels = []
    | inr (nl, names) =>
        labels ≠ [] ∧ NoDup names ∧ (∀ x, x ∈ names ↔ x ∈ labels) ∧
        Forall2 (λ n x, names !! n = Some x) nl labels
    end.

(** Modelled from the spec: one normaliser that meets [normalise_spec], with
    the names in the order of their first occurrence. *)
Fixpoint index_of `{EqDecision L} (x : L) (names : list L) : nat :=
  match names with
  | [] => 0
  | y :: names' => if decide (x = y) then 0 else S (index_of x names')
  end.

Definition dense_normaliser `{EqDecision L} {X} (bad : X) (labels : list L)
    : X + (list nat * list L) :=
  match labels with
  | [] => inl bad
  | _ :: _ =>
      let names := remove_dups labels in
      inr ((λ x, index_of x names) <$> labels, names)
  end.

Section propagate.
Context {Feat SubModel Base K V X : Type}.
Context {C : Classifier Feat SubModel Base K V X}.

(** [for k,v in self.options.iteritems(): self.base.set_option(k, v)];
    [options] lists the items of the dictionary in iteration order. *)
Definition propagate_options (options : list (K * V)) : M X Base () :=
  for_each options (λ '(k, v), upstream (base_set_option k v)).
End propagate.

(** ** one_against_rest *)

Module one_against_rest_model.
Section defs.
Context {L Feat SubModel Base K V X : Type}.
Context {C : Classifier Feat SubModel Base K V X}.

Record t := mk { models : list SubModel; nclasses : nat; names : list L }.

Definition init (models : list SubModel) (names : list L) : t :=
  {| models := models; nclasses := length models; names := names |}.

Definition apply (feats : Feat) : M X t L :=
  ms <- gets models ;;
  let vals := (λ c, sub_apply c feats) <$> ms in
  let idxs := np_where vals in
  label <- (if decide (length idxs = 1) then
              match idxs with
              | [label] => ret label
              | _ => raise ValueError
              end
            else if decide (length idxs = 0) then ret 0
            else lift (index idxs 0)) ;;
  ns <- gets names ;;
  lift (index ns label).
End defs.
Arguments t : clear implicits.
End one_against_rest_model.

Module one_against_rest.
Section defs.
Context {L Feat SubModel Base K V X : Type}.
Context {C : Classifier Feat SubModel Base K V X} {N : Normaliser L X}.

Definition train (options : list (K * V)) (features : list Feat)
    (labels : list L) (normalisedlabels : bool)
    : M X Base (one_against_rest_model.t L SubModel) :=
  normalised <- upstream (λ b, (normaliselabels labels, b)) ;;
  let '(labels, names) := normalised in
  mx <- lift (array_max labels) ;;
  let nclasses := mx + 1 in
  models <- for_acc (xrange 0 nclasses) (λ i models,
      propagate_options options ;;
      model <- upstream (base_train features (eq_indicator labels i) (Some true)) ;;
      ret (models ++ [model])) [] ;;
  ret (one_against_rest_model.init models names).
End defs.
End one_against_rest.

(** ** one_against_one *)

Module one_against_one_model.
Section defs.
Context {L Feat SubModel Base K V X : Type}.
Context {C : Classifier Feat SubModel Base K V X}.

(** [models] is the square table of the source: [models[i][j]] holds the
    sub-model of the pair when [i < j] and [None] elsewhere. *)
Record t := mk {
  models : list (list (option SubModel));
  names : list L;
  nclasses : nat
}.

Definition init (models : list (list (option SubModel))) (names : list L) : t :=
  {| models := models; names := names; nclasses := length models |}.

(** [self.models[i][j].apply(feats)] *)
Definition pair_apply (feats : Feat) (i j : nat) : M X t bool :=
  ms <- gets models ;;
  row <- lift (index ms i) ;;
  entry <- lift (index row j) ;;
  match entry with
  | Some model => ret (sub_apply model feats)
  | None => raise AttributeError
  end.

(** The two loops of [apply]: the tally when they are done. *)
Definition tally (feats : Feat) : M X t (list nat) :=
  nc <- gets nclasses ;;
  let votes := replicate nc 0 in
  for_acc (xrange 0 nc) (λ i votes,
    for_acc (xrange (i + 1) nc) (λ j votes,
      c <- pair_apply feats i j ;;
      if c : bool then lift (incr votes i) else lift (incr votes j))
    votes)
  votes.

Definition apply (feats : Feat) : M X t L :=
  votes <- tally feats ;;
  ns <- gets names ;;
  label <- lift (argmax votes) ;;
  lift (index ns label).
End defs.
Arguments t : clear implicits.
End one_against_one_model.

Module one_against_one.
Section defs.
Context {L Feat SubModel Base K V X : Type}.
Context {C : Classifier Feat SubModel Base K V X} {N : Normaliser L X}.

Definition no_data : string :=
  "milk.multi.one_against_one: Pair-wise classifier has no data".

(** The body of the inner loop, for the pair [(i, j)]. *)
Definition train_pair (options : list (K * V)) (features : list Feat)
    (labels : list nat) (i j : nat) (models : list (list (option SubModel)))
    : M X Base (list (list (option SubModel))) :=
  propagate_options options ;;
  let idxs := or_mask (eq_mask labels i) (eq_mask labels j) in
  assert (bool_decide (0 < mask_sum idxs)) no_data ;;
  fs <- lift (mask_select features idxs) ;;
  ls <- lift (mask_select labels idxs) ;;
  model <- upstream (base_train fs (eq_indicator ls i) (Some true)) ;;
  lift (table_set models i j (Some model)).

Definition train (options : list (K * V)) (features : list Feat)
    (labels : list L) : M X Base (one_against_one_model.t L SubModel) :=
  normalised <- upstream (λ b, (normaliselabels labels, b)) ;;
  let '(labels, names) := normalised in
  mx <- lift (array_max labels) ;;
  let nclasses := mx + 1 in
  let models := replicate nclasses (replicate nclasses None) in
  models <- for_acc (xrange 0 nclasses) (λ i models,
      for_acc (xrange (i + 1) nclasses) (train_pair options features labels i)
        models) models ;;
  ret (one_against_one_model.init models names).
End defs.
End one_against_one.

(** ** one_against_rest_multi *)

Module one_against_rest_multi_model.
Section defs.
Context `{Countable L} {Feat SubModel Base K V X : Type}.
Context {C : Classifier Feat SubModel Base K V X}.

(** The dictionary from label to sub-model. *)
Record t := mk { models : gmap L SubModel }.

Definition init (models : gmap L SubModel) : t := {| models := models |}.

(** The list comprehension over [self.models.iteritems()]. *)
Definition apply (feats : Feat) : M X t (list L) :=
  ms <- gets models ;;
  ret ((filter (λ item, sub_apply item.2 feats) (map_to_list ms)).*1).
End defs.
Arguments t L {_ _} SubModel.
End one_against_rest_multi_model.

Module one_against_rest_multi.
Section defs.
Context `{Countable L} {Feat SubModel Base K V X : Type}.
Context {C : Classifier Feat SubModel Base K V X}.

(** [all_labels = set(); for ls in labels: all_labels.update(ls)] *)
Definition all_labels (labels : list (list L)) : gset L :=
  foldl (λ acc ls, acc ∪ list_to_set ls) ∅ labels.

(** [[(label in ls) for ls in labels]]; [True] and [False] are the
    integers 1 and 0. *)
Definition in_indicator (label : L) (labels : list (list L)) : list Z :=
  (λ ls, Z.b2z (bool_decide (label ∈ ls))) <$> labels.

(** [for label in all_labels]: [elements] stands for the order in which
    the Python set is iterated, which the source leaves to the hash table;
    what is stated of [train] below does not depend on that order. *)
Definition train (features : list Feat) (labels : list (list L))
    (normalisedlabels : bool)
    : M X Base (one_against_rest_multi_model.t L SubModel) :=
  models <- for_acc (elements (all_labels labels)) (λ label models,
      model <- upstream (base_train features (in_indicator label labels) None) ;;
      ret (<[label := model]> models)) (∅ : gmap L SubModel) ;;
  ret (one_against_rest_multi_model.init models).
End defs.
End one_against_rest_multi.

(** ** A concrete base classifier

    A classifier that memorises its training set: the sub-model is the list
    of the training instances with their indicator, and it fires on the
    instances it has seen with indicator 1.  The state of the base object is
    the list of the options written to it, latest first. *)

Module memo.
Definition sub_model : Type := list (nat * Z).
Definition base : Type := list (string * Z).

Definition set_option (k : string) (v : Z) (b : base) : (string + ()) * base :=
  (inr (), (k, v) :: b).

Definition train (features : list nat) (labels : list Z) (nl : option bool)
    (b : base) : (string + sub_model) * base :=
  (inr (zip features labels), b).

Definition recalls (m : sub_model) (feats : nat) : bool :=
  bool_decide ((feats, 1%Z) ∈ m).

#[global] Instance classifier : Classifier nat sub_model base string Z string :=
  {| base_set_option := set_option; base_train := train; sub_apply := recalls |}.

#[global] Instance normaliser : Normaliser nat string :=
  dense_normaliser "empty"%string.
End memo.


(** ** Concrete training sets *)

Module demo.
Import memo.

Definition options : list (string * Z) := [("C"%string, 1%Z)].
Definition features : list nat := [10; 11; 20; 21; 30].
Definition labels : list nat := [5; 5; 7; 7; 9].

(** What [one_against_rest] makes of the training set. *)
Definition rest_model : one_against_rest_model.t nat sub_model :=
  Eval vm_compute in
    match (one_against_rest.train options features labels true []).1 with
    | inr m => m
    | inl _ => one_against_rest_model.init [] []
    end.

(** What [one_against_one] makes of it. *)
Definition one_model : one_against_one_model.t nat sub_model :=
  Eval vm_compute in
    match (one_against_one.train options features labels []).1 with
    | inr m => m
    | inl _ => one_against_one_model.init [] []
    end.

(** The base classifier after either training: the option has been
    written once per sub-model. *)
Definition trained_base : base :=
  [("C"%string, 1%Z); ("C"%string, 1%Z); ("C"%string, 1%Z)].

(** A multi-label training set and its model. *)
Definition multi_features : list nat := [10; 11; 12].
Definition multi_labels : list (list nat) := [[1; 2]; [2]; [3]].

Definition multi_model : one_against_rest_multi_model.t nat sub_model :=
  Eval vm_compute in
    match (one_against_rest_multi.train multi_features multi_labels false []).1 with
    | inr m => m
    | inl _ => one_against_rest_multi_model.init ∅
    end.


(** Labels the caller has not normalised, passed as if they were. *)
Definition raw_features : list nat := [10; 20].
Definition raw_labels : list nat := [0; 2].

Definition raw_rest_model : one_against_rest_model.t nat sub_model :=
  Eval vm_compute in
    match (one_against_rest.train options raw_features raw_labels true []).1 with
    | inr m => m
    | inl _ => one_against_rest_model.init [] []
    end.
End demo.

(** ** The learner objects

    [one_against_rest] and [one_against_one] are built and configured alike:
    [__init__] starts with an empty dictionary of options and [set_option]
    writes to it.  The attribute [base] is the object whose state the
    computations of [train] carry. *)

Module learner.
Section defs.
Context `{Countable K} {V : Type}.

Record t := mk { is_multi_class : bool; options : gmap K V }.

(** [__init__] *)
Definition init : t := {| is_multi_class := true; options := ∅ |}.

(** [self.options[k] = v] *)
Definition set_option {X} (k : K) (v : V) : M X t () :=
  λ self, (inr (), {| is_multi_class := is_multi_class self;
                      options := <[k := v]> (options self) |}).

(** [self.options.iteritems()]: every key once, with its value. *)
Definition iteritems (self : t) : list (K * V) := map_to_list (options self).
End defs.
Arguments t K {_ _} V.
End learner.

(** The option the memorising classifier has for a key: the one written
    last. *)
Fixpoint memo_get (b : memo.base) (k : string) : option Z :=
  match b with
  | [] => None
  | (k', v) :: b' => if decide (k' = k) then Some v else memo_get b' k
  end.

(** ** [apply] with sub-models that may raise

    [sub_apply] above is the answer of a sub-model that answers.  The call
    [c.apply(feats)] can also raise, and the three [apply] of this module
    catch nothing: [sub_answer] is the call with its error channel, the
    truth value of the answer or what was raised, and the definitions below
    are [one_against_rest_model.apply] and [one_against_one_model.apply]
    over it. *)

Class Answering (Feat SubModel X : Type) :=
  sub_answer : SubModel → Feat → X + bool.

Module raising.
Section defs.
Context {L Feat SubModel X : Type} {A : Answering Feat SubModel X}.

(** [[c.apply(feats) for c in self.models]]: the answers from left to
    right, up to the first sub-model that raises. *)
Definition answers (ms : list SubModel) (feats : Feat)
    : M X (one_against_rest_model.t L SubModel) (list bool) :=
  for_acc ms (λ c vals,
      v <- upstream (λ s, (sub_answer c feats, s)) ;;
      ret (vals ++ [v])) [].

(** [one_against_rest_model.apply] *)
Definition one_against_rest_model_apply (feats : Feat)
    : M X (one_against_rest_model.t L SubModel) L :=
  ms <- gets one_against_rest_model.models ;;
  vals <- answers ms feats ;;
  let idxs := np_where vals in
  label <- (if decide (length idxs = 1) then
              match idxs with
              | [label] => ret label
              | _ => raise ValueError
              end
            else if decide (length idxs = 0) then ret 0
            else lift (index idxs 0)) ;;
  ns <- gets one_against_rest_model.names ;;
  lift (index ns label).

(** [self.models[i][j].apply(feats)] *)
Definition pair_apply (feats : Feat) (i j : nat)
    : M X (one_against_one_model.t L SubModel) bool :=
  ms <- gets one_against_one_model.models ;;
  row <- lift (index ms i) ;;
  entry <- lift (index row j) ;;
  match entry with
  | Some model => upstream (λ s, (sub_answer model feats, s))
  | None => raise AttributeError
  end.

(** The two loops of [one_against_one_model.apply]. *)
Definition tally (feats : Feat)
    : M X (one_against_one_model.t L SubModel) (list nat) :=
  nc <- gets one_against_one_model.nclasses ;;
  let votes := replicate nc 0 in
  for_acc (xrange 0 nc) (λ i votes,
    for_acc (xrange (i + 1) nc) (λ j votes,
      c <- pair_apply feats i j ;;
      if c : bool then lift (incr votes i) else lift (incr votes j))
    votes)
  votes.

(** [one_against_one_model.apply] *)
Definition one_against_one_model_apply (feats : Feat)
    : M X (one_against_one_model.t L SubModel) L :=
  votes <- tally feats ;;
  ns <- gets one_against_one_model.names ;;
  label <- lift (argmax votes) ;;
  lift (index ns label).
End defs.
End raising.

(** The memorising sub-model as one that may raise: it refuses an input
    that is not among its training instances. *)
Definition memo_answer : Answering nat memo.sub_model string :=
  λ m feats,
    if bool_decide (feats ∈ m.*1) then inr (memo.recalls m feats)
    else inl "unseen"%string.

(** * Specifications

    [wp m s Φ E]: run from the state [s], the computation [m] either returns
    a value and a state that satisfy [Φ], or raises an exception that, with
    the state it leaves, satisfies [E]. *)

Definition wp {X S A} (m : M X S A) (s : S)
    (Φ : A → S → Prop) (E : exn X → S → Prop) : Prop :=
  match m s with
  | (inr a, s') => Φ a s'
  | (inl e, s') => E e s'
  end.

(** The pairs [(i, j)] with [i < j < n], in the order the two loops of
    [one_against_one] visit them. *)
Definition pairs (n : nat) : list (nat * nat) :=
  i ← xrange 0 n; (i,.) <$> xrange (i + 1) n.

(** The entry [(i, j)] of a table. *)
Definition entry {A} (t : list (list A)) (i j : nat) : option A :=
  t !! i ≫= (.!! j).

(** The sub-models a triangular table holds. *)
Definition sub_models {A} (t : list (list (option A))) : list A :=
  row ← t; omap id row.

(** The training instances with label [i] or [j], each with its label. *)
Definition pair_subset {A} (features : list A) (labels : list nat) (i j : nat)
    : list (A * nat) :=
  filter (λ p, p.2 = i ∨ p.2 = j) (zip features labels).

Section vote_spec.
Context {Feat SubModel Base K V X : Type}.
Context {C : Classifier Feat SubModel Base K V X}.

(** The base classifier raises nothing. *)
Definition base_total : Prop :=
  (∀ k v b, ∃ b', base_set_option k v b = (inr (), b')) ∧
  (∀ fs ind nl b, ∃ model b', base_train fs ind nl b = (inr model, b')).

(** Whether the entry [(i, j)] of a table is a sub-model that fires. *)
Definition fires (t : list (list (option SubModel))) (feats : Feat)
    (i j : nat) : bool :=
  match entry t i j with
  | Some (Some model) => sub_apply model feats
  | _ => false
  end.

(** The class the pair [(i, j)] votes for: [i] when its sub-model fires,
    [j] when it does not. *)
Definition vote (t : list (list (option SubModel))) (feats : Feat)
    (p : nat * nat) : nat :=
  if fires t feats p.1 p.2 then p.1 else p.2.

(** The number of the pairs [ps] that vote for the class [k]. *)
Definition votes_in (t : list (list (option SubModel))) (feats : Feat)
    (ps : list (nat * nat)) (k : nat) : nat :=
  length (filter (λ p, vote t feats p = k) ps).

(** The tally of the class [k]: one vote per pair [i < j < n]. *)
Definition vote_count (t : list (list (option SubModel))) (feats : Feat)
    (n k : nat) : nat :=
  votes_in t feats (pairs n) k.
End vote_spec.

(** [r] is the position of the maximum of [l], the lowest one when the
    maximum occurs more than once. *)
Definition is_argmax (l : list nat) (r : nat) : Prop :=
  ∃ rv, l !! r = Some rv ∧
    (∀ k v, l !! k = Some v → v ≤ rv) ∧
    (∀ k v, k < r → l !! k = Some v → v < rv).

Section rest_spec.
Context {L Feat SubModel Base K V X : Type}.
Context {C : Classifier Feat SubModel Base K V X}.
Import one_against_rest_model.

(** The sub-model of class [k] fires on [feats]. *)
Definition rest_fires (m : t L SubModel) (feats : Feat) (k : nat) : Prop :=
  ∃ c, models m !! k = Some c ∧ sub_apply c feats = true.
End rest_spec.

Section one_spec.
Context {Feat SubModel Base K V X : Type}.
Context {C : Classifier Feat SubModel Base K V X}.

(** The entry [e] of the table is a sub-model that the base classifier
    returned when trained on the instances with label [i] or [j], against
    the indicator that is 1 on those with label [i]. *)
Definition pair_trained (features : list Feat) (labels : list nat)
    (i j : nat) (e : option (option SubModel)) : Prop :=
  ∃ c b1 b2, e = Some (Some c) ∧
    base_train (pair_subset features labels i j).*1
      ((λ p, Z.b2z (bool_decide (p.2 = i))) <$> pair_subset features labels i j)
      (Some true) b1 = (inr c, b2).

(** The table when the pairs [pre] have been trained. *)
Definition table_inv (features : list Feat) (nl : list nat) (n : nat)
    (pre : list (nat * nat)) (t : list (list (option SubModel))) : Prop :=
  length t = n ∧ Forall (λ row, length row = n) t ∧
  (∀ i j, i < n → j < n → (i, j) ∉ pre → entry t i j = Some None) ∧
  (∀ i j, (i, j) ∈ pre →
     pair_trained features nl i j (entry t i j) ∧
     (∃ l, l ∈ nl ∧ (l = i ∨ l = j)) ∧ length features = length nl) ∧
  length (sub_models t) = length pre.
End one_spec.

Section one_model_spec.
Context {L Feat SubModel Base K V X : Type}.
Context {C : Classifier Feat SubModel Base K V X}.
Import one_against_one_model.
Implicit Types (m : t L SubModel) (feats : Feat).

(** Every pair [i < j] of the table holds a sub-model. *)
Definition pairs_filled m : Prop :=
  ∀ i j, i < j < nclasses m → ∃ c, entry (models m) i j = Some (Some c).

(** The votes when the pairs [pre] have been run through. *)
Definition tally_inv m feats (pre : list (nat * nat)) (votes : list nat) : Prop :=
  length votes = nclasses m ∧
  (∀ k, k < nclasses m → votes !! k = Some (votes_in (models m) feats pre k)) ∧
  sum_list votes = length pre.
End one_model_spec.

(** The indicators [one_against_rest] would train against if it took the
    labels as they are supplied: one per class [0 .. max]. *)
Definition passthrough_indicators (labels : list nat) : list (list Z) :=
  eq_indicator labels <$> xrange 0 (max_list labels + 1).

(** * Further specifications *)

Section exn_spec.
Context {L Feat SubModel Base K V X : Type}.
Context {C : Classifier Feat SubModel Base K V X} {N : Normaliser L X}.

End exn_spec.

Section store_spec.
Context {Feat SubModel Base K V X : Type}.
Context {C : Classifier Feat SubModel Base K V X}.

(** The base classifier keeps its options where [get] reads them: a
    [set_option] that returns has written its option and changed no
    other. *)
Definition option_store (get : Base → K → option V) : Prop :=
  ∀ k v b b', base_set_option k v b = (inr (), b') →
    get b' k = Some v ∧ ∀ k', k' ≠ k → get b' k' = get b k'.
End store_spec.

Section raising_spec.
Context {L Feat SubModel X : Type} {A : Answering Feat SubModel X}.

(** The sub-model of class [k] answers, and fires. *)
Definition answer_fires (m : one_against_rest_model.t L SubModel)
    (feats : Feat) (k : nat) : Prop :=
  ∃ c, one_against_rest_model.models m !! k = Some c ∧
       sub_answer c feats = inr true.

(** The sub-model at index [k] raises [x], and those before it answer. *)
Definition first_raises (ms : list SubModel) (feats : Feat)
    (k : nat) (x : X) : Prop :=
  ∃ c, ms !! k = Some c ∧ sub_answer c feats = inl x ∧
    ∀ k' c', k' < k → ms !! k' = Some c' → ∃ v, sub_answer c' feats = inr v.

(** The sub-model of some pair [i < j] of the table raises [x]. *)
Definition pair_raises (m : one_against_one_model.t L SubModel)
    (feats : Feat) (x : X) : Prop :=
  ∃ i j c, i < j < one_against_one_model.nclasses m ∧
    entry (one_against_one_model.models m) i j = Some (Some c) ∧
    sub_answer c feats = inl x.
End raising_spec.
(** * Reasoning about computations *)

Section wp.
Context {X S : Type}.
Implicit Types (s : S) (e : exn X) (E : exn X → S → Prop).

Lemma wp_ret {A} (a : A) s Φ E : Φ a s → wp (ret a) s Φ E.
Proof. done. Qed.

Lemma wp_raise {A} e s (Φ : A → S → Prop) E : E e s → wp (raise e) s Φ E.
Proof. done. Qed.

Lemma wp_gets {A} (f : S → A) s Φ E : Φ (f s) s → wp (gets f) s Φ E.
Proof. done. Qed.

Lemma wp_lift {A} (r : exn X + A) s Φ E :
  match r with inr a => Φ a s | inl e => E e s end → wp (lift r) s Φ E.
Proof. done. Qed.

Lemma wp_bind {A B} (m : M X S A) (f : A → M X S B) s Φ E :
  wp m s (λ a s', wp (f a) s' Φ E) E → wp (bind m f) s Φ E.
Proof. unfold wp, bind. by destruct (m s) as [[e|a] s']. Qed.

Lemma wp_mono {A} (m : M X S A) s (Φ Φ' : A → S → Prop) (E E' : exn X → S → Prop) :
  wp m s Φ E →
  (∀ a s', Φ a s' → Φ' a s') → (∀ e s', E e s' → E' e s') →
  wp m s Φ' E'.
Proof. unfold wp. destruct (m s) as [[e|a] s']; auto. Qed.

Lemma wp_and {A} (m : M X S A) s (Φ Φ' : A → S → Prop) (E E' : exn X → S → Prop) :
  wp m s Φ E → wp m s Φ' E' →
  wp m s (λ a s', Φ a s' ∧ Φ' a s') (λ e s', E e s' ∧ E' e s').
Proof. unfold wp. destruct (m s) as [[e|a] s']; auto. Qed.

Lemma wp_upstream {A} (f : S → (X + A) * S) s Φ E :
  match f s with
  | (inr a, s') => Φ a s'
  | (inl x, s') => E (Upstream x) s'
  end → wp (upstream f) s Φ E.
Proof. unfold wp, upstream. by destruct (f s) as [[x|a] s']. Qed.

Lemma wp_assert (c : bool) msg s Φ E :
  (c = true → Φ () s) → (c = false → E (AssertionError msg) s) →
  wp (assert c msg) s Φ E.
Proof. destruct c; unfold assert; auto using wp_ret, wp_raise. Qed.

(** What a run returned satisfies the postcondition. *)
Lemma wp_returns {A} (m : M X S A) s Φ E a s' :
  wp m s Φ E → m s = (inr a, s') → Φ a s'.
Proof. unfold wp. intros Hwp Hrun. by rewrite Hrun in Hwp. Qed.


(** A computation that cannot raise returns. *)
Lemma wp_total {A} (m : M X S A) s Φ :
  wp m s Φ (λ _ _, False) → ∃ a s', m s = (inr a, s') ∧ Φ a s'.
Proof. unfold wp. destruct (m s) as [[e|a] s']; [done|eauto]. Qed.

(** The loop rule: [I pre acc s] holds when the elements [pre] have been
    run through, with [acc] the locals and [s] the state. *)
Lemma wp_for_acc {A B} (xs : list A) (body : A → B → M X S B) acc s
    (I : list A → B → S → Prop) E :
  I [] acc s →
  (∀ pre x post acc s, xs = pre ++ x :: post → I pre acc s →
     wp (body x acc) s (I (pre ++ [x])) E) →
  wp (for_acc xs body acc) s (I xs) E.
Proof.
  revert acc s I. induction xs as [|x xs IH]; intros acc s I HI Hbody.
  - by apply wp_ret.
  - simpl. apply wp_bind.
    eapply wp_mono; [apply (Hbody [] x xs); done| |done].
    intros acc' s' HI'. apply (IH acc' s' (λ pre, I (x :: pre))); [done|].
    intros pre y post acc'' s'' -> HI''.
    apply (Hbody (x :: pre) y post); done.
Qed.

Lemma for_acc_app {A B} (xs ys : list A) (body : A → B → M X S B) acc s :
  for_acc (xs ++ ys) body acc s =
  bind (for_acc xs body acc) (for_acc ys body) s.
Proof.
  revert acc s. induction xs as [|x xs IH]; intros acc s; simpl; [reflexivity|].
  unfold bind in *. destruct (body x acc s) as [[e|a] s']; [reflexivity|]. apply IH.
Qed.

Lemma for_acc_fmap {A A' B} (g : A → A') (xs : list A)
    (body : A' → B → M X S B) acc s :
  for_acc (g <$> xs) body acc s = for_acc xs (λ x, body (g x)) acc s.
Proof.
  revert acc s. induction xs as [|x xs IH]; intros acc s; simpl; [reflexivity|].
  unfold bind. destruct (body (g x) acc s) as [[e|a] s']; [reflexivity|]. apply IH.
Qed.

(** Two nested loops run through the pairs in lexicographic order. *)
Lemma for_acc_nested {A B C} (xs : list A) (f : A → list B)
    (body : A → B → C → M X S C) acc s :
  for_acc xs (λ x acc, for_acc (f x) (body x) acc) acc s =
  for_acc (x ← xs; (x,.) <$> f x) (λ p, body p.1 p.2) acc s.
Proof.
  revert acc s. induction xs as [|x xs IH]; intros acc s; [reflexivity|].
  rewrite bind_cons, for_acc_app. simpl. unfold bind.
  rewrite for_acc_fmap. simpl.
  destruct (for_acc (f x) _ acc s) as [[e|a] s']; [reflexivity|]. apply IH.
Qed.
End wp.
(** * Lists, ranges and arrays *)

Lemma elem_of_xrange a b i : i ∈ xrange a b ↔ a ≤ i < b.
Proof. unfold xrange. rewrite elem_of_seq. lia. Qed.

Lemma elem_of_pairs n i j : (i, j) ∈ pairs n ↔ i < j < n.
Proof.
  unfold pairs. rewrite list_elem_of_bind. split.
  - intros (i' & Hj & Hi). apply list_elem_of_fmap in Hj as (j' & [= -> ->] & Hj).
    apply elem_of_xrange in Hj, Hi. lia.
  - intros Hij. exists i. split.
    + apply list_elem_of_fmap. exists j. split; [done|]. apply elem_of_xrange. lia.
    + apply elem_of_xrange. lia.
Qed.

Lemma NoDup_pairs n : NoDup (pairs n).
Proof.
  unfold pairs. apply NoDup_bind.
  - intros i1 i2 p _ _ H1 H2.
    apply list_elem_of_fmap in H1 as (? & -> & _).
    apply list_elem_of_fmap in H2 as (? & [= -> _] & _). done.
  - intros i _. apply NoDup_fmap_2_strong; [|apply NoDup_seq]. by intros ?? _ _ [= ->].
  - apply NoDup_seq.
Qed.

Lemma length_pairs_from n a len :
  a + len = n →
  2 * length (i ← seq a len; (i,.) <$> xrange (i + 1) n) = len * (len - 1).
Proof.
  revert a. induction len as [|len IH]; intros a Hn; [done|].
  simpl seq. rewrite bind_cons, length_app, length_fmap.
  unfold xrange at 1. rewrite length_seq.
  specialize (IH (S a)). nia.
Qed.

Lemma length_pairs n : length (pairs n) = n * (n - 1) / 2.
Proof.
  pose proof (length_pairs_from n 0 n eq_refl) as H.
  unfold pairs. replace (xrange 0 n) with (seq 0 n)
    by (unfold xrange; f_equal; lia).
  rewrite <- H. rewrite Nat.mul_comm. by rewrite Nat.div_mul.
Qed.
Lemma argmax_from_spec pre l bi bv :
  pre !! bi = Some bv →
  (∀ k v, pre !! k = Some v → v ≤ bv) →
  (∀ k v, k < bi → pre !! k = Some v → v < bv) →
  is_argmax (pre ++ l) (argmax_from bi bv (length pre) l).
Proof.
  revert pre bi bv. induction l as [|v l IH]; intros pre bi bv Hbi Hmax Hlow.
  - rewrite app_nil_r. exists bv. eauto.
  - simpl. rewrite (cons_middle v pre l), (assoc_L (++)).
    replace (S (length pre)) with (length (pre ++ [v]))
      by (rewrite length_app; simpl; lia).
    destruct (Nat.ltb_spec bv v) as [Hlt|Hge]; apply IH.
    + by rewrite lookup_app_r, Nat.sub_diag.
    + intros k w Hk. apply lookup_app_Some in Hk as [Hk|[_ Hk]].
      * apply Hmax in Hk. lia.
      * apply list_lookup_singleton_Some in Hk as [_ ->]. lia.
    + intros k w Hlen Hk. rewrite lookup_app_l in Hk by done.
      apply Hmax in Hk. lia.
    + rewrite lookup_app_l; [done|]. by eapply lookup_lt_Some.
    + intros k w Hk. apply lookup_app_Some in Hk as [Hk|[_ Hk]].
      * by eapply Hmax.
      * apply list_lookup_singleton_Some in Hk as [_ ->]. lia.
    + intros k w Hlen Hk. apply lookup_app_Some in Hk as [Hk|[Hk' Hk]].
      * by eapply Hlow.
      * apply lookup_lt_Some in Hbi. lia.
Qed.

Lemma argmax_spec {X} (l : list nat) :
  l ≠ [] → ∃ r, argmax (X:=X) l = inr r ∧ is_argmax l r.
Proof.
  destruct l as [|v l]; [done|]. intros _. eexists. split; [done|].
  apply (argmax_from_spec [v] l 0 v); [done|..].
  - intros k w Hk. apply list_lookup_singleton_Some in Hk as [_ ->]. lia.
  - intros; lia.
Qed.

Lemma incr_spec {X} (votes : list nat) i v :
  votes !! i = Some v →
  ∃ votes', incr (X:=X) votes i = inr votes' ∧
    length votes' = length votes ∧
    votes' !! i = Some (v + 1) ∧
    (∀ k, k ≠ i → votes' !! k = votes !! k) ∧
    sum_list votes' = sum_list votes + 1.
Proof.
  intros Hi. unfold incr. rewrite Hi. eexists. split; [done|].
  pose proof (lookup_lt_Some _ _ _ Hi) as Hlt.
  split_and!.
  - by rewrite length_insert.
  - by rewrite list_lookup_insert_eq.
  - intros k Hk. by rewrite list_lookup_insert_ne.
  - rewrite insert_take_drop by done.
    rewrite <- (take_drop_middle votes i v) at 3 by done.
    rewrite !sum_list_with_app. simpl. lia.
Qed.

Lemma elem_of_where_from i vals k :
  k ∈ where_from i vals ↔ ∃ p, k = i + p ∧ vals !! p = Some true.
Proof.
  revert i. induction vals as [|v vals IH]; intros i; simpl.
  - split; [by intros ?%elem_of_nil|by intros (p & _ & ?)].
  - assert (k ∈ where_from (S i) vals ↔
            ∃ p, k = i + S p ∧ (v :: vals) !! S p = Some true) as IH'.
    { rewrite IH. split; intros (p & -> & Hp); exists p; (split; [lia|done]). }
    destruct v.
    + rewrite elem_of_cons, IH'. split.
      * intros [->|(p & -> & Hp)]; [exists 0|exists (S p)]; (split; [lia|done]).
      * intros ([|p] & -> & Hp); [left; lia|right; eauto].
    + rewrite IH'. split.
      * intros (p & -> & Hp). eauto.
      * intros ([|p] & -> & Hp); [done|eauto].
Qed.

Lemma where_from_lb i vals k : k ∈ where_from i vals → i ≤ k.
Proof. rewrite elem_of_where_from. intros (p & -> & _). lia. Qed.

Lemma where_from_head i vals k rest :
  where_from i vals = k :: rest →
  ∀ k', k' ∈ where_from i vals → k ≤ k'.
Proof.
  revert i. induction vals as [|v vals IH]; intros i; simpl; [done|].
  destruct v.
  - intros [= <- <-] k'. rewrite elem_of_cons.
    intros [->|Hk']; [done|]. apply where_from_lb in Hk'. lia.
  - apply IH.
Qed.

(** The first of the firing positions is the lowest one. *)
Lemma np_where_spec vals :
  match np_where vals with
  | [] => ∀ p, vals !! p ≠ Some true
  | k :: _ => vals !! k = Some true ∧ ∀ p, vals !! p = Some true → k ≤ p
  end.
Proof.
  unfold np_where. destruct (where_from 0 vals) as [|k rest] eqn:Hw.
  - intros p Hp. assert (0 + p ∈ where_from 0 vals) as Hin
      by (apply elem_of_where_from; eauto).
    rewrite Hw in Hin. by apply elem_of_nil in Hin.
  - split.
    + assert (k ∈ where_from 0 vals) as Hin by (rewrite Hw; left).
      apply elem_of_where_from in Hin as (p & -> & Hp). done.
    + intros p Hp. eapply where_from_head; [done|].
      apply elem_of_where_from. eauto.
Qed.

Section table.
Context {X A : Type}.
Implicit Types (t : list (list A)) (row : list A).

Lemma entry_Some t i j a :
  entry t i j = Some a ↔ ∃ row, t !! i = Some row ∧ row !! j = Some a.
Proof.
  unfold entry. destruct (t !! i) as [row|]; simpl.
  - split; [eauto|]. by intros (? & [= <-] & ?).
  - split; [done|]. by intros (? & ? & _).
Qed.

Lemma table_set_spec t i j a row :
  t !! i = Some row → j < length row →
  table_set (X:=X) t i j a = inr (<[i := <[j := a]> row]> t).
Proof. intros Hi Hj. unfold table_set. rewrite Hi. by rewrite decide_True. Qed.

Lemma entry_insert_eq t i j a row :
  t !! i = Some row → j < length row →
  entry (<[i := <[j := a]> row]> t) i j = Some a.
Proof.
  intros Hi Hj. unfold entry.
  rewrite list_lookup_insert_eq by (by eapply lookup_lt_Some). simpl.
  by rewrite list_lookup_insert_eq.
Qed.

Lemma entry_insert_ne t i j i' j' a row :
  t !! i = Some row → (i', j') ≠ (i, j) →
  entry (<[i := <[j := a]> row]> t) i' j' = entry t i' j'.
Proof.
  intros Hi Hne. unfold entry. destruct (decide (i' = i)) as [->|Hi'].
  - rewrite list_lookup_insert_eq by (by eapply lookup_lt_Some).
    rewrite Hi. simpl. rewrite list_lookup_insert_ne; [done|congruence].
  - by rewrite list_lookup_insert_ne.
Qed.

Lemma entry_replicate n i j (a : A) :
  i < n → j < n → entry (replicate n (replicate n a)) i j = Some a.
Proof.
  intros Hi Hj. unfold entry. rewrite lookup_replicate_2 by done. simpl.
  by rewrite lookup_replicate_2.
Qed.
End table.

Lemma omap_id_insert {A} (row : list (option A)) j c :
  row !! j = Some None →
  length (omap id (<[j := Some c]> row)) = S (length (omap id row)).
Proof.
  intros Hj. pose proof (lookup_lt_Some _ _ _ Hj) as Hlt.
  rewrite insert_take_drop by done.
  rewrite <- (take_drop_middle row j None) at 3 by done.
  rewrite !omap_app, !length_app. simpl. lia.
Qed.

Lemma sub_models_insert {A} (t : list (list (option A))) i j c row :
  t !! i = Some row → row !! j = Some None →
  length (sub_models (<[i := <[j := Some c]> row]> t)) = S (length (sub_models t)).
Proof.
  intros Hi Hj. pose proof (lookup_lt_Some _ _ _ Hi) as Hlt. unfold sub_models.
  rewrite insert_take_drop by done.
  rewrite <- (take_drop_middle t i row) at 3 by done.
  rewrite !bind_app, !bind_cons, !length_app.
  rewrite omap_id_insert by done. lia.
Qed.

Lemma sub_models_replicate {A} n k :
  sub_models (replicate n (replicate k (None : option A))) = [].
Proof.
  unfold sub_models. induction n as [|n IH]; [done|].
  simpl replicate. rewrite bind_cons, IH, app_nil_r.
  clear. induction k as [|k IH]; [done|]. done.
Qed.

(** ** Masks *)

Lemma mask_sum_pos (labels : list nat) i j :
  0 < mask_sum (or_mask (eq_mask labels i) (eq_mask labels j)) ↔
  ∃ l, l ∈ labels ∧ (l = i ∨ l = j).
Proof.
  unfold mask_sum, or_mask, eq_mask.
  induction labels as [|l labels IH]; simpl.
  - split; [lia|]. by intros (l & ?%elem_of_nil & _).
  - destruct (decide (l = i ∨ l = j)) as [Hl|Hl].
    + split; [intros _; exists l; split; [left|done]|intros _].
      destruct Hl as [->| ->]; repeat case_bool_decide; simpl; try done; lia.
    + rewrite !bool_decide_eq_false_2 by tauto. simpl. rewrite IH.
      split; intros (l' & Hl' & Hor).
      * exists l'. split; [by right|done].
      * apply elem_of_cons in Hl' as [->|Hl']; [done|eauto].
Qed.

Lemma length_or_eq_mask (labels : list nat) i j :
  length (or_mask (eq_mask labels i) (eq_mask labels j)) = length labels.
Proof. unfold or_mask, eq_mask. rewrite length_zip_with, !length_fmap. lia. Qed.

(** The mask of a pair selects the instances of [pair_subset]. *)
Lemma mask_filter_pair_subset {A} (features : list A) (labels : list nat) i j :
  length features = length labels →
  let idxs := or_mask (eq_mask labels i) (eq_mask labels j) in
  mask_filter features idxs = (pair_subset features labels i j).*1 ∧
  mask_filter labels idxs = (pair_subset features labels i j).*2.
Proof.
  unfold pair_subset, or_mask, eq_mask. revert features.
  induction labels as [|l labels IH]; intros [|f features] Hlen; try done.
  csimpl in *. destruct (IH features) as [IH1 IH2]; [lia|].
  destruct (decide (l = i ∨ l = j)) as [Hl|Hl].
  - rewrite filter_cons_True by done.
    replace (bool_decide (l = i) || bool_decide (l = j)) with true.
    + csimpl. by rewrite IH1, IH2.
    + symmetry. destruct Hl as [->| ->]; repeat case_bool_decide; done.
  - rewrite filter_cons_False by done.
    rewrite !bool_decide_eq_false_2 by tauto. done.
Qed.

(** * The label normaliser *)

Lemma max_list_lt (l : list nat) n : l ≠ [] → Forall (λ x, x < n) l → max_list l < n.
Proof.
  intros Hne Hall. apply max_list_elem_of in Hne.
  rewrite Forall_forall in Hall. by apply Hall.
Qed.

Section normalise.
Context {L X : Type} `{EqDecision L}.
Context (norm : list L → X + (list nat * list L)).
Context (labels : list L) (nl : list nat) (names : list L).
Hypothesis Hspec : normalise_spec norm.
Hypothesis Hnorm : norm labels = inr (nl, names).

Lemma normalise_facts :
  labels ≠ [] ∧ NoDup names ∧ (∀ x, x ∈ names ↔ x ∈ labels) ∧
  Forall2 (λ n x, names !! n = Some x) nl labels.
Proof. specialize (Hspec labels). by rewrite Hnorm in Hspec. Qed.

Lemma normalise_length : length nl = length labels.
Proof. destruct normalise_facts as (_ & _ & _ & H2). by eapply Forall2_length. Qed.

Lemma normalise_nonempty : nl ≠ [].
Proof.
  destruct normalise_facts as (Hne & _ & _ & H2).
  intros ->. apply Forall2_nil_inv_l in H2. done.
Qed.

Lemma normalise_bound i : i ∈ nl → i < length names.
Proof.
  destruct normalise_facts as (_ & _ & _ & H2).
  intros (p & Hp)%list_elem_of_lookup.
  destruct (Forall2_lookup_l _ _ _ _ _ H2 Hp) as (x & _ & Hx).
  by eapply lookup_lt_Some.
Qed.

(** The normalised labels are dense: every index of the name table is the
    label of some instance. *)
Lemma normalise_dense i : i < length names → i ∈ nl.
Proof.
  destruct normalise_facts as (_ & Hnd & Hin & H2).
  intros (x & Hx)%lookup_lt_is_Some.
  assert (x ∈ labels) as (p & Hp)%list_elem_of_lookup
    by (apply Hin; by eapply list_elem_of_lookup_2).
  destruct (Forall2_lookup_r _ _ _ _ _ H2 Hp) as (k & Hk & Hkx).
  rewrite (NoDup_lookup _ _ _ _ Hnd Hx Hkx).
  by eapply list_elem_of_lookup_2.
Qed.

Lemma normalise_nclasses : max_list nl + 1 = length names.
Proof.
  pose proof normalise_nonempty as Hne.
  assert (max_list nl < length names).
  { apply max_list_lt; [done|]. apply Forall_forall, normalise_bound. }
  assert (length names - 1 ≤ max_list nl); [|lia].
  apply max_list_elem_of_le, normalise_dense. lia.
Qed.

(** The name table has one entry per distinct label. *)
Lemma normalise_names_length : length names = length (remove_dups labels).
Proof.
  destruct normalise_facts as (_ & Hnd & Hin & _).
  apply Permutation_length, NoDup_Permutation; [done|apply NoDup_remove_dups|].
  intros x. rewrite elem_of_remove_dups. apply Hin.
Qed.
End normalise.

(** The normaliser by first occurrence meets the specification. *)
Lemma index_of_lookup `{EqDecision L} (x : L) names :
  x ∈ names → names !! index_of x names = Some x.
Proof.
  induction names as [|y names IH]; [by intros ?%elem_of_nil|].
  simpl. destruct (decide (x = y)) as [->|Hne]; [done|].
  intros [?|?]%elem_of_cons; [done|]. by apply IH.
Qed.

Lemma dense_normaliser_spec `{EqDecision L} {X} (bad : X) :
  normalise_spec (dense_normaliser (L:=L) bad).
Proof.
  intros [|x labels]; [done|]. unfold dense_normaliser.
  set (ls := x :: labels). split_and!; [done|apply NoDup_remove_dups| |].
  - intros y. apply elem_of_remove_dups.
  - apply Forall2_fmap_l, Forall_Forall2_diag, Forall_forall.
    intros y Hy. apply index_of_lookup, elem_of_remove_dups, Hy.
Qed.

(** * one_against_rest *)

Section base.
Context {Feat SubModel Base K V X : Type}.
Context {C : Classifier Feat SubModel Base K V X}.

Lemma propagate_options_wp (options : list (K * V)) b (E : exn X → Base → Prop) :
  (∀ k v b x b', base_set_option k v b = (inl x, b') → E (Upstream x) b') →
  wp (propagate_options options) b (λ _ _, True) E.
Proof.
  intros HE. unfold propagate_options, for_each.
  eapply wp_mono; [apply (wp_for_acc _ _ _ _ (λ _ _ _, True)); [done|] |done|done].
  intros pre [k v] post acc s _ _. apply wp_upstream.
  destruct (base_set_option k v s) as [[x|[]] s'] eqn:Hs; [eauto|done].
Qed.
End base.

Section rest.
Context {L Feat SubModel Base K V X : Type}.
Context {C : Classifier Feat SubModel Base K V X} {N : Normaliser L X}.
Import one_against_rest_model.

(** What [train] returns, and what each exception it raises comes from. *)
Lemma rest_train_wp options features (labels : list L) fl b
    (E : exn X → Base → Prop) :
  (∀ x, normaliselabels labels = inl x → E (Upstream x) b) →
  (∀ names, normaliselabels labels = inr ([], names) → E ValueError b) →
  (∀ k v b x b', base_set_option k v b = (inl x, b') → E (Upstream x) b') →
  (∀ fs ind b x b', base_train fs ind (Some true) b = (inl x, b') →
     E (Upstream x) b') →
  wp (one_against_rest.train options features labels fl) b
    (λ m _, ∃ nl ns, normaliselabels labels = inr (nl, ns) ∧ nl ≠ [] ∧
       names m = ns ∧ nclasses m = max_list nl + 1 ∧
       length (models m) = max_list nl + 1 ∧
       ∀ i, i < max_list nl + 1 → ∃ c b1 b2,
         models m !! i = Some c ∧
         base_train features (eq_indicator nl i) (Some true) b1 = (inr c, b2))
    E.
Proof.
  intros HEnorm HEmax HEset HEtrain. unfold one_against_rest.train.
  apply wp_bind, wp_upstream.
  destruct (normaliselabels labels) as [x|[nl ns]] eqn:Hnorm; [by apply HEnorm|].
  apply wp_bind, wp_lift. destruct nl as [|l0 nl']; [by apply (HEmax ns)|].
  set (nl := l0 :: nl'). simpl array_max. cbv beta.
  set (n := max_list nl + 1).
  apply wp_bind.
  eapply wp_mono; [apply (wp_for_acc _ _ _ _ (λ pre (ms : list SubModel) _,
    length ms = length pre ∧
    ∀ i, i < length pre → ∃ c b1 b2, ms !! i = Some c ∧
      base_train features (eq_indicator nl i) (Some true) b1 = (inr c, b2)))| |done].
  - split; [done|]. simpl. lia.
  - intros pre i post ms s Hxs [Hlen Hms].
    assert (i = length pre) as ->.
    { unfold xrange in Hxs. apply (f_equal (.!! length pre)) in Hxs.
      rewrite list_lookup_middle in Hxs by done.
      apply lookup_seq in Hxs. lia. }
    apply wp_bind. eapply wp_mono; [by apply propagate_options_wp| |done].
    intros _ s' _. apply wp_bind, wp_upstream.
    destruct (base_train _ _ _ s') as [[x|c] s''] eqn:Htrain; [by eapply HEtrain|].
    apply wp_ret. rewrite !length_app. simpl. split; [lia|].
    intros i Hi. destruct (decide (i < length pre)) as [Hlt|Hge].
    + destruct (Hms i Hlt) as (c' & b1 & b2 & Hc' & Hb). exists c', b1, b2.
      split; [|done]. by apply lookup_app_l_Some.
    + assert (i = length pre) as -> by lia. exists c, s', s''. split; [|done].
      rewrite lookup_app_r by lia. by rewrite Hlen, Nat.sub_diag.
  - intros ms s [Hlen Hms]. apply wp_ret.
    unfold xrange in *. rewrite length_seq, Nat.sub_0_r in *.
    exists nl, ns. split_and!; done.
Qed.

Lemma rest_apply_spec (m : t L SubModel) feats :
  1 ≤ length (models m) → length (names m) = length (models m) →
  ∃ label name,
    apply (X:=X) feats m = (inr name, m) ∧ names m !! label = Some name ∧
    ((∀ k, ¬ rest_fires m feats k) → label = 0) ∧
    (∀ k, rest_fires m feats k → rest_fires m feats label ∧ label ≤ k).
Proof.
  intros Hlen Hnames.
  set (vals := (λ c, sub_apply c feats) <$> models m).
  assert (∀ k, vals !! k = Some true ↔ rest_fires m feats k) as Hvals.
  { intros k. unfold vals, rest_fires. rewrite list_lookup_fmap.
    destruct (models m !! k) as [c|]; simpl.
    - split; [intros [= Hc]; eauto|intros (c' & [= <-] & Hc'); by rewrite Hc'].
    - split; [done|by intros (c' & ? & _)]. }
  assert (∀ label, label < length (models m) → ∃ name,
    lift (X:=X) (index (names m) label) m = (inr name, m) ∧
    names m !! label = Some name) as Hidx.
  { intros label Hlt. rewrite <- Hnames in Hlt.
    apply lookup_lt_is_Some in Hlt as [name Hname]. exists name.
    unfold lift, index. by rewrite Hname. }
  pose proof (np_where_spec vals) as Hw.
  unfold apply, bind, gets. fold vals.
  destruct (np_where vals) as [|k [|k2 rest]].
  - destruct (Hidx 0) as (name & Hrun & Hname); [lia|].
    exists 0, name. simpl. split_and!; [done..|].
    intros k Hk. apply Hvals in Hk. by apply Hw in Hk.
  - destruct Hw as [Hk Hlow]. destruct (Hidx k) as (name & Hrun & Hname).
    { apply Hvals in Hk as (c & Hc & _). by eapply lookup_lt_Some. }
    exists k, name. simpl. split_and!; [done..| |].
    + intros Hnone. by apply Hvals, Hnone in Hk.
    + intros k' Hk'. split; [by apply Hvals|]. by apply Hlow, Hvals.
  - destruct Hw as [Hk Hlow]. destruct (Hidx k) as (name & Hrun & Hname).
    { apply Hvals in Hk as (c & Hc & _). by eapply lookup_lt_Some. }
    exists k, name. simpl. split_and!; [done..| |].
    + intros Hnone. by apply Hvals, Hnone in Hk.
    + intros k' Hk'. split; [by apply Hvals|]. by apply Hlow, Hvals.
Qed.
End rest.

(** * one_against_one *)

Lemma wp_for_nested {X S A B C} (xs : list A) (f : A → list B)
    (body : A → B → C → M X S C) acc s (Φ : C → S → Prop) E :
  wp (for_acc (x ← xs; (x,.) <$> f x) (λ p, body p.1 p.2) acc) s Φ E →
  wp (for_acc xs (λ x acc, for_acc (f x) (body x) acc) acc) s Φ E.
Proof. unfold wp. by rewrite for_acc_nested. Qed.

Lemma array_max_nonempty {X} (a : list nat) :
  a ≠ [] → array_max (X:=X) a = inr (max_list a).
Proof. by destruct a. Qed.

Section one.
Context {L Feat SubModel Base K V X : Type}.
Context {C : Classifier Feat SubModel Base K V X} {N : Normaliser L X}.
Import one_against_one_model.

Lemma train_pair_wp options features nl n pre i j post t b
    (E : exn X → Base → Prop) :
  pairs n = pre ++ (i, j) :: post →
  table_inv features nl n pre t →
  (∀ k v b x b', base_set_option k v b = (inl x, b') → E (Upstream x) b') →
  (∀ fs ind b x b', base_train fs ind (Some true) b = (inl x, b') →
     E (Upstream x) b') →
  ((∀ l, l ∈ nl → l ≠ i ∧ l ≠ j) → ∀ b, E (AssertionError one_against_one.no_data) b) →
  (length features ≠ length nl → ∀ b, E IndexError b) →
  wp (one_against_one.train_pair options features nl i j t) b
    (λ t' _, table_inv features nl n (pre ++ [(i, j)]) t') E.
Proof.
  intros Hpairs (Hlen & Hrows & Hnone & Hdone & Hcount) HEset HEtrain HEassert HEindex.
  assert (i < j < n) as Hij.
  { apply elem_of_pairs. rewrite Hpairs. apply elem_of_app. right. left. }
  assert ((i, j) ∉ pre) as Hfresh.
  { pose proof (NoDup_pairs n) as Hnd. rewrite Hpairs in Hnd.
    apply NoDup_app in Hnd as (_ & Hnd & _). intros Hin.
    apply (Hnd _ Hin). left. }
  unfold one_against_one.train_pair.
  apply wp_bind. eapply wp_mono; [by apply propagate_options_wp| |done].
  intros _ s _. cbv zeta. apply wp_bind, wp_assert.
  2:{ intros Hsum%bool_decide_eq_false. apply HEassert.
      intros l Hl. split; intros ->; apply Hsum, mask_sum_pos; eauto. }
  intros Hsum%bool_decide_eq_true. apply mask_sum_pos in Hsum.
  apply wp_bind, wp_lift. unfold mask_select.
  rewrite length_or_eq_mask. destruct (decide (length nl = length features)) as [Hfl|Hfl];
    [|apply HEindex; congruence].
  apply wp_bind, wp_lift. rewrite decide_True by done.
  destruct (mask_filter_pair_subset features nl i j) as [Hfs Hls]; [done|].
  cbv zeta in Hfs, Hls. rewrite Hfs, Hls.
  apply wp_bind, wp_upstream.
  destruct (base_train _ _ _ s) as [[x|c] s'] eqn:Htrain; [by eapply HEtrain|].
  assert (entry t i j = Some None) as Hentry by (apply Hnone; [lia..|done]).
  apply entry_Some in Hentry as (row & Hrow & Hj).
  pose proof (lookup_lt_Some _ _ _ Hj) as Hjlt.
  apply wp_lift. rewrite (table_set_spec t i j _ row) by done.
  split_and!.
  - by rewrite length_insert.
  - apply Forall_insert; [done|]. rewrite length_insert.
    rewrite Forall_forall in Hrows. apply Hrows. by eapply list_elem_of_lookup_2.
  - intros i' j' Hi' Hj' Hnotin. rewrite entry_insert_ne; [|done|].
    + apply Hnone; [done..|]. intros Hin. apply Hnotin, elem_of_app. by left.
    + intros [= -> ->]. apply Hnotin, elem_of_app. right. left.
  - intros i' j' [Hin|Hin%list_elem_of_singleton]%elem_of_app.
    + rewrite entry_insert_ne; [by apply Hdone|done|]. by intros [= -> ->].
    + injection Hin as -> ->. rewrite entry_insert_eq by done.
      split_and!; [|done|done]. exists c, s, s'. split; [done|].
      rewrite <- Htrain. f_equal. unfold eq_indicator.
      by rewrite <- list_fmap_compose.
  - rewrite sub_models_insert by done. rewrite length_app. simpl. lia.
Qed.

Lemma table_inv_init features nl n :
  table_inv features nl n [] (replicate n (replicate n None)).
Proof.
  split_and!.
  - by rewrite length_replicate.
  - apply Forall_replicate. by rewrite length_replicate.
  - intros i j Hi Hj _. by apply entry_replicate.
  - by intros i j ?%elem_of_nil.
  - by rewrite sub_models_replicate.
Qed.

(** What [train] returns, and what each exception it raises comes from. *)
Lemma one_train_wp options features (labels : list L) b
    (E : exn X → Base → Prop) :
  (∀ x, normaliselabels labels = inl x → E (Upstream x) b) →
  (∀ ns, normaliselabels labels = inr ([], ns) → E ValueError b) →
  (∀ k v b x b', base_set_option k v b = (inl x, b') → E (Upstream x) b') →
  (∀ fs ind b x b', base_train fs ind (Some true) b = (inl x, b') →
     E (Upstream x) b') →
  (∀ nl ns i j, normaliselabels labels = inr (nl, ns) →
     i < j < max_list nl + 1 → (∀ l, l ∈ nl → l ≠ i ∧ l ≠ j) →
     ∀ b, E (AssertionError one_against_one.no_data) b) →
  (∀ nl ns, normaliselabels labels = inr (nl, ns) →
     length features ≠ length nl → ∀ b, E IndexError b) →
  wp (one_against_one.train options features labels) b
    (λ m _, ∃ nl ns, normaliselabels labels = inr (nl, ns) ∧ nl ≠ [] ∧
       names m = ns ∧ nclasses m = max_list nl + 1 ∧
       table_inv features nl (max_list nl + 1) (pairs (max_list nl + 1))
         (models m))
    E.
Proof.
  intros HEnorm HEmax HEset HEtrain HEassert HEindex.
  unfold one_against_one.train.
  apply wp_bind, wp_upstream.
  destruct (normaliselabels labels) as [x|[nl ns]] eqn:Hnorm; [by apply HEnorm|].
  apply wp_bind, wp_lift.
  destruct (decide (nl = [])) as [->|Hne]; [by apply (HEmax ns)|].
  rewrite array_max_nonempty by done. cbv zeta.
  set (n := max_list nl + 1).
  apply wp_bind, wp_for_nested.
  eapply wp_mono;
    [apply (wp_for_acc _ _ _ _ (λ pre t _, table_inv features nl n pre t))| |done].
  - apply table_inv_init.
  - intros pre [i j] post t s Hpairs Hinv. simpl.
    change (pairs n = pre ++ (i, j) :: post) in Hpairs.
    eapply train_pair_wp; try done.
    + intros Hno. apply (HEassert nl ns i j); [done| |done].
      apply (elem_of_pairs n). rewrite Hpairs. apply elem_of_app. right. left.
    + by apply (HEindex nl ns).
  - intros t s Hinv. apply wp_ret. exists nl, ns.
    split_and!; try done. simpl. apply Hinv.
Qed.
End one.

Section one_apply.
Context {L Feat SubModel Base K V X : Type}.
Context {C : Classifier Feat SubModel Base K V X}.
Import one_against_one_model.
Implicit Types (m : t L SubModel) (feats : Feat).

Lemma votes_in_snoc (tb : list (list (option SubModel))) feats pre p k :
  votes_in tb feats (pre ++ [p]) k =
  votes_in tb feats pre k + (if decide (vote tb feats p = k) then 1 else 0).
Proof.
  unfold votes_in. rewrite filter_app, length_app. f_equal.
  rewrite filter_cons, filter_nil. by destruct (decide _).
Qed.

(** ** [apply] does not change the model.  *)

Lemma pair_apply_readonly feats i j m :
  wp (pair_apply (L:=L) (X:=X) feats i j) m (λ _ s, s = m) (λ _ s, s = m).
Proof.
  unfold pair_apply. apply wp_bind, wp_gets, wp_bind, wp_lift.
  destruct (index _ i) as [e|row]; [done|].
  apply wp_bind, wp_lift. destruct (index row j) as [e|[c|]]; try done.
Qed.

Lemma tally_readonly feats m :
  wp (tally (X:=X) feats) m (λ _ s, s = m) (λ _ s, s = m).
Proof.
  unfold tally. apply wp_bind, wp_gets.
  apply (wp_for_acc _ _ _ _ (λ _ _ s, s = m)); [done|].
  intros _ i _ votes s _ ->.
  apply (wp_for_acc _ _ _ _ (λ _ _ s, s = m)); [done|].
  intros _ j _ votes' s _ ->.
  apply wp_bind. eapply wp_mono; [apply pair_apply_readonly| |done].
  intros c s ->. destruct c; apply wp_lift; by destruct (incr _ _).
Qed.

Lemma apply_readonly feats m :
  wp (apply (X:=X) feats) m (λ _ s, s = m) (λ _ s, s = m).
Proof.
  unfold apply. apply wp_bind. eapply wp_mono; [apply tally_readonly| |done].
  intros votes s ->. apply wp_bind, wp_gets, wp_bind, wp_lift.
  destruct (argmax votes) as [e|label]; [done|].
  apply wp_lift. by destruct (index _ _).
Qed.

(** ** The tally of a model whose pairs all hold a sub-model *)

Lemma pair_apply_wp feats i j m :
  pairs_filled m → i < j < nclasses m →
  wp (pair_apply (X:=X) feats i j) m
    (λ c s, s = m ∧ c = fires (models m) feats i j) (λ _ _, False).
Proof.
  intros Hfilled Hij. destruct (Hfilled i j Hij) as (c & Hc).
  unfold fires. rewrite Hc.
  apply entry_Some in Hc as (row & Hrow & Hj).
  unfold pair_apply. apply wp_bind, wp_gets, wp_bind, wp_lift.
  unfold index. rewrite Hrow. apply wp_bind, wp_lift. rewrite Hj.
  by apply wp_ret.
Qed.

Lemma tally_wp feats m :
  pairs_filled m →
  wp (tally (X:=X) feats) m
    (λ votes s, s = m ∧ tally_inv m feats (pairs (nclasses m)) votes)
    (λ _ _, False).
Proof.
  intros Hfilled. unfold tally. apply wp_bind, wp_gets, wp_for_nested.
  set (n := nclasses m).
  apply (wp_for_acc _ _ _ _ (λ pre votes s, s = m ∧ tally_inv m feats pre votes)).
  - split; [done|]. split_and!.
    + by rewrite length_replicate.
    + intros k Hk. by rewrite lookup_replicate_2.
    + rewrite sum_list_replicate. simpl. lia.
  - intros pre [i j] post votes s Hpairs [-> (Hlen & Hvotes & Hsum)]. simpl.
    change (pairs n = pre ++ (i, j) :: post) in Hpairs.
    assert (i < j < n) as Hij.
    { apply elem_of_pairs. rewrite Hpairs. apply elem_of_app. right. left. }
    apply wp_bind. eapply wp_mono; [by apply pair_apply_wp| |done].
    intros c s [-> ->].
    set (w := vote (models m) feats (i, j)).
    assert (w < n) as Hw by (unfold w, vote; simpl; destruct (fires _ _ _ _); lia).
    assert ((if fires (models m) feats i j
             then lift (X:=X) (S:=t L SubModel) (incr votes i)
             else lift (incr votes j)) = lift (incr votes w)) as ->.
    { unfold w, vote. simpl. by destruct (fires _ _ _ _). }
    destruct (incr_spec (X:=X) votes w _ (Hvotes w Hw))
      as (votes' & -> & Hlen' & Hw' & Hother & Hsum').
    apply wp_lift. split; [done|]. split_and!.
    + by rewrite Hlen'.
    + intros k Hk. rewrite votes_in_snoc. fold w.
      destruct (decide (w = k)) as [<-|Hne].
      * rewrite Hw'. done.
      * rewrite Hother by done. rewrite Hvotes by done. f_equal. lia.
    + rewrite Hsum', Hsum, length_app. simpl. lia.
Qed.

(** A class meets each other class in one pair only: it has at most
    [n - 1] votes. *)
Lemma vote_count_le (tb : list (list (option SubModel))) feats n k :
  vote_count tb feats n k ≤ n - 1.
Proof.
  unfold vote_count, votes_in.
  set (W := filter (λ p, vote tb feats p = k) (pairs n)).
  set (g := λ p : nat * nat, if decide (p.1 = k) then p.2 - 1 else p.1).
  assert (∀ p, p ∈ W → p.1 < p.2 < n ∧ (p.1 = k ∨ p.2 = k)) as HW.
  { intros [i j] [Hv Hp]%list_elem_of_filter. apply elem_of_pairs in Hp.
    split; [done|]. unfold vote in Hv. simpl in *.
    destruct (fires _ _ _ _); auto. }
  rewrite <- (length_fmap g W).
  assert (length (g <$> W) ≤ length (seq 0 (n - 1))) as Hle;
    [|by rewrite length_seq in Hle].
  apply submseteq_length, NoDup_submseteq.
  - apply NoDup_fmap_2_strong; [|apply NoDup_filter, NoDup_pairs].
    intros [i j] [i' j'] Hp Hp' Hg. apply HW in Hp, Hp'. unfold g in Hg.
    simpl in *. repeat case_decide; f_equal; lia.
  - intros x (p & -> & Hp)%list_elem_of_fmap. apply HW in Hp.
    apply elem_of_seq. unfold g. case_decide; lia.
Qed.
End one_apply.

(** * one_against_rest_multi *)

Section multi.
Context `{Countable L} {Feat SubModel Base K V X : Type}.
Context {C : Classifier Feat SubModel Base K V X}.
Import one_against_rest_multi_model.

Lemma elem_of_all_labels (labels : list (list L)) lab :
  lab ∈ one_against_rest_multi.all_labels labels ↔ ∃ ls, ls ∈ labels ∧ lab ∈ ls.
Proof.
  unfold one_against_rest_multi.all_labels.
  assert (∀ acc : gset L,
    lab ∈ foldl (λ acc ls, acc ∪ list_to_set ls) acc labels ↔
    lab ∈ acc ∨ ∃ ls, ls ∈ labels ∧ lab ∈ ls) as Hgen.
  { induction labels as [|ls labels IH]; intros acc; simpl.
    - split; [auto|]. intros [?|(ls & ?%elem_of_nil & _)]; done.
    - rewrite IH, elem_of_union, elem_of_list_to_set. split.
      + intros [[?|?]|(ls' & ? & ?)]; [by left|right..].
        * exists ls. split; [left|done].
        * exists ls'. split; [by right|done].
      + intros [?|(ls' & [->|?]%elem_of_cons & ?)]; [by left; left|by left; right|].
        right. eauto. }
  rewrite Hgen. split; [|auto]. by intros [?%elem_of_empty|?].
Qed.

(** What [train] returns, and what each exception it raises comes from. *)
Lemma multi_train_wp features (labels : list (list L)) fl b
    (E : exn X → Base → Prop) :
  (∀ fs ind b x b', base_train fs ind None b = (inl x, b') → E (Upstream x) b') →
  wp (one_against_rest_multi.train features labels fl) b
    (λ m _, dom (models m) = one_against_rest_multi.all_labels labels ∧
       ∀ lab c, models m !! lab = Some c → ∃ b1 b2,
         base_train features (one_against_rest_multi.in_indicator lab labels)
           None b1 = (inr c, b2))
    E.
Proof.
  intros HEtrain. unfold one_against_rest_multi.train. apply wp_bind.
  eapply wp_mono; [apply (wp_for_acc _ _ _ _ (λ pre (ms : gmap L SubModel) _,
    dom ms = list_to_set pre ∧
    ∀ lab c, ms !! lab = Some c → ∃ b1 b2,
      base_train features (one_against_rest_multi.in_indicator lab labels)
        None b1 = (inr c, b2)))| |done].
  - split; [by rewrite dom_empty_L|]. intros lab c. by rewrite lookup_empty.
  - intros pre lab post ms s _ [Hdom Hms]. apply wp_bind, wp_upstream.
    destruct (base_train _ _ _ s) as [[x|c] s'] eqn:Htrain; [by eapply HEtrain|].
    apply wp_ret. split.
    + rewrite dom_insert_L, Hdom, list_to_set_app_L. simpl.
      rewrite (right_id_L ∅ (∪)). apply (comm_L (∪)).
    + intros lab' c'. rewrite lookup_insert. case_decide as Heq.
      * intros [= <-]. subst. eauto.
      * apply Hms.
  - intros ms s [Hdom Hms]. apply wp_ret. split; [|done]. simpl.
    rewrite Hdom. apply list_to_set_elements_L.
Qed.

Lemma multi_apply_spec (m : t L SubModel) (feats : Feat) :
  ∃ labs, apply (X:=X) feats m = (inr labs, m) ∧ NoDup labs ∧
    ∀ lab, lab ∈ labs ↔ ∃ c, models m !! lab = Some c ∧ sub_apply c feats = true.
Proof.
  eexists. split; [reflexivity|]. split.
  - apply NoDup_fmap_fst.
    + intros lab c1 c2 [_ H1]%list_elem_of_filter [_ H2]%list_elem_of_filter.
      apply elem_of_map_to_list in H1, H2. congruence.
    + apply NoDup_filter, NoDup_map_to_list.
  - intros lab. rewrite list_elem_of_fmap. split.
    + intros ([lab' c] & -> & [Hc Hin]%list_elem_of_filter).
      apply elem_of_map_to_list in Hin. exists c. split; [done|].
      simpl in Hc. by apply Is_true_true.
    + intros (c & Hc & Hfire). exists (lab, c). split; [done|].
      apply list_elem_of_filter. split; [simpl; by apply Is_true_true|].
      by apply elem_of_map_to_list.
Qed.
End multi.

(** * The claims *)

Section rest_claims.
Context {L Feat SubModel Base K V X : Type}.
Context {C : Classifier Feat SubModel Base K V X} {N : Normaliser L X}.
Import one_against_rest_model.

Lemma rest_train_returns options features (labels : list L) fl b m b' :
  one_against_rest.train options features labels fl b = (inr m, b') →
  ∃ nl ns, normaliselabels labels = inr (nl, ns) ∧ nl ≠ [] ∧
    names m = ns ∧ nclasses m = max_list nl + 1 ∧
    length (models m) = max_list nl + 1 ∧
    ∀ i, i < max_list nl + 1 → ∃ c b1 b2,
      models m !! i = Some c ∧
      base_train features (eq_indicator nl i) (Some true) b1 = (inr c, b2).
Proof.
  intros Hrun.
  apply (wp_returns _ _ _ (λ _ _, True) _ _ (rest_train_wp _ _ _ _ _ _
    (λ _ _, I) (λ _ _, I) (λ _ _ _ _ _ _, I) (λ _ _ _ _ _ _, I)) Hrun).
Qed.

Lemma rest_train_total options features (labels : list L) fl b :
  base_total → normalise_spec normaliselabels → labels ≠ [] →
  ∃ m b', one_against_rest.train options features labels fl b = (inr m, b').
Proof.
  intros [Hset Htrain] Hspec Hne.
  pose proof (Hspec labels) as Hl.
  edestruct (wp_total (one_against_rest.train options features labels fl) b)
    as (m & b' & Hrun & _); [|eauto].
  apply rest_train_wp.
  - intros x Hx. by rewrite Hx in Hl.
  - intros ns Hns. rewrite Hns in Hl. destruct Hl as (_ & _ & _ & Hl).
    apply Forall2_nil_inv_l in Hl. done.
  - intros k v b0 x b1 Hx. destruct (Hset k v b0) as [? Hok]. congruence.
  - intros fs ind b0 x b1 Hx. destruct (Htrain fs ind (Some true) b0) as (? & ? & Hok).
    congruence.
Qed.

(** C2. On a model that [one_against_rest.train] returned, [apply] looks
    at the [nclasses] sub-models and returns the name at the index of the
    only sub-model that fires when there is exactly one, at index 0 when
    none fires, and at the lowest firing index when several fire. *)
Theorem one_against_rest_apply_label options features (labels : list L) fl
    b m b' feats :
  normalise_spec normaliselabels →
  one_against_rest.train options features labels fl b = (inr m, b') →
  length (models m) = nclasses m ∧
  ∃ label name,
    apply feats m = (inr name, m) ∧ names m !! label = Some name ∧
    (∀ k, rest_fires m feats k →
       (∀ k', rest_fires m feats k' → k' = k) → label = k) ∧
    ((∀ k, ¬ rest_fires m feats k) → label = 0) ∧
    (∀ k, rest_fires m feats k → rest_fires m feats label ∧ label ≤ k).
Proof.
  intros Hspec Hrun.
  destruct (rest_train_returns _ _ _ _ _ _ _ Hrun)
    as (nl & ns & Hnorm & Hne & Hns & Hnc & Hlen & _).
  pose proof (normalise_nclasses _ _ _ _ Hspec Hnorm) as Hnames.
  split; [congruence|].
  destruct (rest_apply_spec (X:=X) m feats) as (label & name & Happ & Hname & H0 & Hlow).
  { lia. }
  { rewrite Hns. lia. }
  exists label, name. split_and!; try done.
  intros k Hk Huniq. destruct (Hlow k Hk) as [Hl _]. by apply Huniq.
Qed.

(** C6, as amended. [one_against_rest.train] never looks at
    [normalisedlabels]: whatever the flag, the labels go through
    [normaliselabels], the sub-model of class [i] is trained against the
    indicator of the normalised label [i], and the name table is the one
    the normaliser returned. *)
Theorem one_against_rest_train_ignores_flag options features (labels : list L)
    fl b nl ns m b' :
  normaliselabels labels = inr (nl, ns) →
  one_against_rest.train options features labels true b = (inr m, b') →
  one_against_rest.train options features labels fl b = (inr m, b') ∧
  names m = ns ∧ length (models m) = max_list nl + 1 ∧
  ∀ i, i < max_list nl + 1 → ∃ c b1 b2,
    models m !! i = Some c ∧
    base_train features (eq_indicator nl i) (Some true) b1 = (inr c, b2).
Proof.
  intros Hnorm Hrun. split; [exact Hrun|].
  destruct (rest_train_returns _ _ _ _ _ _ _ Hrun)
    as (nl' & ns' & Hnorm' & _ & Hns & _ & Hlen & Hms).
  rewrite Hnorm in Hnorm'. injection Hnorm' as <- <-. done.
Qed.
End rest_claims.

Lemma one_against_rest_apply_label_witness :
  ∃ label name,
    one_against_rest_model.apply (X:=string) 99 demo.rest_model =
      (inr name, demo.rest_model) ∧
    one_against_rest_model.names demo.rest_model !! label = Some name ∧
    ((∀ k, ¬ rest_fires demo.rest_model 99 k) → label = 0).
Proof.
  destruct (one_against_rest_apply_label (N:=memo.normaliser)
    demo.options demo.features demo.labels true [] demo.rest_model
    demo.trained_base 99) as (_ & label & name & Happ & Hname & _ & H0 & _).
  - apply dense_normaliser_spec.
  - vm_compute. reflexivity.
  - exists label, name. auto.
Defined.

Lemma one_against_rest_train_ignores_flag_witness :
  one_against_rest.train demo.options demo.raw_features demo.raw_labels false [] =
  one_against_rest.train demo.options demo.raw_features demo.raw_labels true [].
Proof.
  pose proof (one_against_rest_train_ignores_flag (N:=memo.normaliser)
    demo.options demo.raw_features demo.raw_labels false [] [0; 1] [0; 2]
    demo.raw_rest_model
    [("C"%string, 1%Z); ("C"%string, 1%Z)]
    ltac:(vm_compute; reflexivity) ltac:(vm_compute; reflexivity)) as [Hfl _].
  rewrite Hfl. vm_compute. reflexivity.
Defined.

(** C6, as the claim has it, fails: the labels [0; 2] passed with
    [normalisedlabels] true are normalised again to [0; 1], and two
    sub-models are trained where a pass-through would train three. *)
Lemma one_against_rest_train_not_passthrough :
  ∃ m b',
    one_against_rest.train demo.options demo.raw_features demo.raw_labels true [] =
      (inr m, b') ∧
    (λ c : memo.sub_model, c.*2) <$> one_against_rest_model.models m ≠
      passthrough_indicators demo.raw_labels.
Proof. eexists _, _. split; [vm_compute; reflexivity|]. vm_compute. discriminate. Qed.

Section one_claims.
Context {L Feat SubModel Base K V X : Type}.
Context {C : Classifier Feat SubModel Base K V X} {N : Normaliser L X}.
Import one_against_one_model.

Lemma one_train_returns options features (labels : list L) b m b' :
  one_against_one.train options features labels b = (inr m, b') →
  ∃ nl ns, normaliselabels labels = inr (nl, ns) ∧ nl ≠ [] ∧
    names m = ns ∧ nclasses m = max_list nl + 1 ∧
    table_inv features nl (max_list nl + 1) (pairs (max_list nl + 1)) (models m).
Proof.
  intros Hrun.
  apply (wp_returns _ _ _ (λ _ _, True) _ _ (one_train_wp _ _ _ _ _
    (λ _ _, I) (λ _ _, I) (λ _ _ _ _ _ _, I) (λ _ _ _ _ _ _, I)
    (λ _ _ _ _ _ _ _ _, I) (λ _ _ _ _ _, I)) Hrun).
Qed.

Lemma one_train_filled options features (labels : list L) b m b' :
  one_against_one.train options features labels b = (inr m, b') →
  1 ≤ nclasses m ∧ pairs_filled m.
Proof.
  intros (nl & ns & _ & _ & _ & Hnc & (_ & _ & _ & Hdone & _))%one_train_returns.
  split; [lia|]. intros i j Hij. rewrite Hnc in Hij.
  apply elem_of_pairs, Hdone in Hij as [(c & _ & _ & Hc & _) _]. eauto.
Qed.

Lemma one_train_total options features (labels : list L) b :
  base_total → normalise_spec normaliselabels → labels ≠ [] →
  length features = length labels →
  ∃ m b', one_against_one.train options features labels b = (inr m, b').
Proof.
  intros [Hset Htrain] Hspec Hne Hlen.
  pose proof (Hspec labels) as Hl.
  edestruct (wp_total (one_against_one.train options features labels) b)
    as (m & b' & Hrun & _); [|eauto].
  apply one_train_wp.
  - intros x Hx. by rewrite Hx in Hl.
  - intros ns Hns. rewrite Hns in Hl. destruct Hl as (_ & _ & _ & Hl).
    apply Forall2_nil_inv_l in Hl. done.
  - intros k v b0 x b1 Hx. destruct (Hset k v b0) as [? Hok]. congruence.
  - intros fs ind b0 x b1 Hx.
    destruct (Htrain fs ind (Some true) b0) as (? & ? & Hok). congruence.
  - intros nl ns i j Hnorm Hij Hnone b0.
    assert (i ∈ nl) as Hi; [|by destruct (Hnone i Hi)].
    eapply normalise_dense; [done..|].
    rewrite <- (normalise_nclasses _ _ _ _ Hspec Hnorm). lia.
  - intros nl ns Hnorm Hfl b0. apply Hfl.
    rewrite (normalise_length _ _ _ _ Hspec Hnorm). done.
Qed.

(** C1. On a model that [one_against_one.train] returned, [apply] gives
    each class one vote per pair [i < j] it wins (class [i] when the
    sub-model of the pair fires, class [j] when it does not) and returns
    the name at the index with the most votes, the lowest such index when
    several have the most. *)
Theorem one_against_one_apply_votes options features (labels : list L)
    b m b' feats :
  normalise_spec normaliselabels →
  one_against_one.train options features labels b = (inr m, b') →
  ∃ votes label name,
    tally feats m = (inr votes, m) ∧
    votes = vote_count (models m) feats (nclasses m) <$> seq 0 (nclasses m) ∧
    apply feats m = (inr name, m) ∧
    names m !! label = Some name ∧ is_argmax votes label.
Proof.
  intros Hspec Hrun.
  destruct (one_train_filled _ _ _ _ _ _ Hrun) as [Hnc Hfilled].
  destruct (one_train_returns _ _ _ _ _ _ Hrun)
    as (nl & ns & Hnorm & _ & Hns & Hncl & _).
  pose proof (normalise_nclasses _ _ _ _ Hspec Hnorm) as Hnames.
  destruct (wp_total _ _ _ (tally_wp (X:=X) feats m Hfilled))
    as (votes & ? & Htally & -> & Hlen & Hvotes & _).
  destruct (argmax_spec (X:=X) votes) as (label & Hargmax & Hlabel).
  { intros ->. simpl in Hlen. lia. }
  assert (label < length (names m)) as [name Hname]%lookup_lt_is_Some.
  { destruct Hlabel as (rv & Hrv%lookup_lt_Some & _). rewrite Hns. lia. }
  exists votes, label, name. split_and!; try done.
  - apply list_eq. intros k. rewrite list_lookup_fmap.
    destruct (decide (k < nclasses m)) as [Hk|Hk].
    + rewrite Hvotes by done. rewrite lookup_seq_lt by done. done.
    + rewrite !lookup_ge_None_2; [done|rewrite length_seq; lia|lia].
  - unfold apply, bind. rewrite Htally. unfold gets, lift.
    rewrite Hargmax. unfold index. by rewrite Hname.
Qed.

(** C10. On a model that [one_against_one.train] returned for [n]
    classes, the tally of one [apply] has [n] entries that add up to
    [n * (n - 1) / 2], one vote per pair, and no entry exceeds [n - 1]. *)
Theorem one_against_one_tally_total options features (labels : list L)
    b m b' feats :
  one_against_one.train options features labels b = (inr m, b') →
  ∃ votes,
    tally feats m = (inr votes, m) ∧ length votes = nclasses m ∧
    sum_list votes = nclasses m * (nclasses m - 1) / 2 ∧
    Forall (λ v, v ≤ nclasses m - 1) votes.
Proof.
  intros Hrun.
  destruct (one_train_filled _ _ _ _ _ _ Hrun) as [Hnc Hfilled].
  destruct (wp_total _ _ _ (tally_wp (X:=X) feats m Hfilled))
    as (votes & ? & Htally & -> & Hlen & Hvotes & Hsum).
  exists votes. split_and!; try done.
  - by rewrite Hsum, length_pairs.
  - apply Forall_lookup. intros k v Hk.
    pose proof (lookup_lt_Some _ _ _ Hk) as Hlt. rewrite Hlen in Hlt.
    rewrite Hvotes in Hk by done. injection Hk as <-. apply vote_count_le.
Qed.

(** C9. [apply] leaves the model as it was, raising or not, and applied
    again to the same input it gives the same result. *)
Theorem one_against_one_apply_repeatable (m : t L SubModel) (feats : Feat) :
  (apply (X:=X) feats m).2 = m ∧
  apply (X:=X) feats (apply (X:=X) feats m).2 = apply feats m.
Proof.
  assert ((apply (X:=X) feats m).2 = m) as Hsame.
  { pose proof (apply_readonly (X:=X) feats m) as Hwp. unfold wp in Hwp.
    by destruct (apply feats m) as [[e|name] s]. }
  split; [done|]. by rewrite Hsame.
Qed.
End one_claims.

Section train_claims.
Context {L Feat SubModel Base K V X : Type} `{EqDecision L}.
Context {C : Classifier Feat SubModel Base K V X} {N : Normaliser L X}.



(** C5. In a model that [one_against_one.train] returned, the entry
    [(i, j)] of the table, for every pair [i < j] of classes, is the
    sub-model that the base classifier returned when trained on the
    instances whose normalised label is [i] or [j], against the indicator
    that is 1 on those with label [i] and 0 on the others. *)
Theorem one_against_one_train_pair_subset options features (labels : list L)
    b nl ns m b' i j :
  normaliselabels labels = inr (nl, ns) →
  one_against_one.train options features labels b = (inr m, b') →
  i < j < one_against_one_model.nclasses m →
  length features = length nl ∧
  pair_trained features nl i j (entry (one_against_one_model.models m) i j).
Proof.
  intros Hnorm Hrun Hij.
  destruct (one_train_returns _ _ _ _ _ _ Hrun)
    as (nl' & ns' & Hnorm' & _ & _ & Hnc & (_ & _ & _ & Hdone & _)).
  rewrite Hnorm in Hnorm'. injection Hnorm' as <- <-. rewrite Hnc in Hij.
  apply elem_of_pairs, Hdone in Hij as (Htrained & _ & Hlen). done.
Qed.

(** C4. For labels with [k] distinct values, a model that
    [one_against_rest.train] returns has [k] sub-models, one per class
    index, and a model that [one_against_one.train] returns has
    [k * (k - 1) / 2], at the entries [(i, j)] with [i < j < k] of its
    table; and both return a model when the base classifier raises nothing
    (and, for [one_against_one], there is a feature row per label). *)
Theorem train_sub_model_counts options features (labels : list L) fl b k :
  normalise_spec normaliselabels →
  length (remove_dups labels) = k → 1 ≤ k →
  (∀ m b', one_against_rest.train options features labels fl b = (inr m, b') →
     length (one_against_rest_model.models m) = k ∧
     one_against_rest_model.nclasses m = k ∧
     ∀ i, i < k ↔ is_Some (one_against_rest_model.models m !! i)) ∧
  (∀ m b', one_against_one.train options features labels b = (inr m, b') →
     length (sub_models (one_against_one_model.models m)) = k * (k - 1) / 2 ∧
     one_against_one_model.nclasses m = k ∧
     ∀ i j, i < k → j < k →
       (i < j ↔ ∃ c, entry (one_against_one_model.models m) i j = Some (Some c))) ∧
  (base_total →
     ∃ m b', one_against_rest.train options features labels fl b = (inr m, b')) ∧
  (base_total → length features = length labels →
     ∃ m b', one_against_one.train options features labels b = (inr m, b')).
Proof.
  intros Hspec Hk Hk1.
  assert (labels ≠ []) as Hne by (intros ->; simpl in Hk; lia).
  assert (∀ nl ns, normaliselabels labels = inr (nl, ns) → max_list nl + 1 = k)
    as Hclasses.
  { intros nl ns Hnorm. rewrite (normalise_nclasses _ _ _ _ Hspec Hnorm).
    by rewrite (normalise_names_length _ _ _ _ Hspec Hnorm). }
  split_and!.
  - intros m b' Hrun.
    destruct (rest_train_returns _ _ _ _ _ _ _ Hrun)
      as (nl & ns & Hnorm & _ & _ & Hnc & Hlen & _).
    rewrite (Hclasses _ _ Hnorm) in *. split_and!; [done..|].
    intros i. rewrite <- Hlen. symmetry. apply lookup_lt_is_Some.
  - intros m b' Hrun.
    destruct (one_train_returns _ _ _ _ _ _ Hrun)
      as (nl & ns & Hnorm & _ & _ & Hnc & (_ & _ & Hnone & Hdone & Hcount)).
    rewrite (Hclasses _ _ Hnorm) in *. split_and!; [|done|].
    + by rewrite Hcount, length_pairs.
    + intros i j Hi Hj. split.
      * intros Hij. destruct (Hdone i j) as [(c & _ & _ & Hc & _) _]; [|eauto].
        apply elem_of_pairs. lia.
      * intros [c Hc]. destruct (decide (i < j)) as [|Hge]; [done|].
        rewrite Hnone in Hc; [done..|]. rewrite elem_of_pairs. lia.
  - intros Hbase. by apply rest_train_total.
  - intros Hbase Hlen. by apply one_train_total.
Qed.
End train_claims.


Section multi_claims.
Context `{Countable L} {Feat SubModel Base K V X : Type}.
Context {C : Classifier Feat SubModel Base K V X}.
Import one_against_rest_multi_model.

(** C7. [apply] returns the labels whose sub-model fires: every key of the
    mapping whose sub-model fires is in the result, once, and nothing else
    is; the result carries no ranking, its order is that of the keys of
    the mapping. *)
Theorem one_against_rest_multi_apply_fires (m : t L SubModel) (feats : Feat) :
  ∃ labs,
    apply (X:=X) feats m = (inr labs, m) ∧ NoDup labs ∧
    (∀ lab, lab ∈ labs ↔
       ∃ c, models m !! lab = Some c ∧ sub_apply c feats = true) ∧
    sublist labs (map_to_list (models m)).*1.
Proof.
  destruct (multi_apply_spec (X:=X) m feats) as (labs & Happ & Hnd & Hin).
  exists labs. split_and!; try done.
  injection Happ as <-. apply fmap_sublist, sublist_filter.
Qed.

(** C8. The keys of the mapping that [train] returns are the labels that
    occur in the label sets of the training instances, and [apply] returns
    no other label; [train] returns a model when the base classifier
    raises nothing. *)
Theorem one_against_rest_multi_label_universe features
    (labels : list (list L)) fl b :
  (∀ m b', one_against_rest_multi.train features labels fl b = (inr m, b') →
     dom (models m) = ⋃ (list_to_set <$> labels) ∧
     (∀ lab, lab ∈ dom (models m) ↔ ∃ ls, ls ∈ labels ∧ lab ∈ ls) ∧
     ∀ feats labs lab, apply (X:=X) feats m = (inr labs, m) → lab ∈ labs →
       ∃ ls, ls ∈ labels ∧ lab ∈ ls) ∧
  (base_total →
     ∃ m b', one_against_rest_multi.train features labels fl b = (inr m, b')).
Proof.
  split.
  - intros m b' Hrun.
    assert (dom (models m) = one_against_rest_multi.all_labels labels) as Hdom.
    { apply (wp_returns _ _ _ (λ _ _, True) _ _
        (multi_train_wp features labels fl b _ (λ _ _ _ _ _ _, I)) Hrun). }
    assert (∀ lab, lab ∈ dom (models m) ↔ ∃ ls, ls ∈ labels ∧ lab ∈ ls) as Hkeys.
    { intros lab. rewrite Hdom. apply elem_of_all_labels. }
    split_and!; [|done|].
    + apply set_eq. intros lab. rewrite Hkeys, elem_of_union_list. split.
      * intros (ls & Hls & Hlab). exists (list_to_set ls).
        split; [by apply list_elem_of_fmap_2|by apply elem_of_list_to_set].
      * intros (s & (ls & -> & Hls)%list_elem_of_fmap & Hlab).
        exists ls. split; [done|by apply elem_of_list_to_set in Hlab].
    + intros feats labs lab Happ Hlab.
      destruct (multi_apply_spec (X:=X) m feats) as (labs' & Happ' & _ & Hin).
      rewrite Happ in Happ'. injection Happ' as <-.
      apply Hin in Hlab as (c & Hc & _). apply Hkeys, elem_of_dom. eauto.
  - intros [_ Htrain].
    edestruct (wp_total (one_against_rest_multi.train features labels fl) b)
      as (m & b' & Hrun & _); [|eauto].
    apply multi_train_wp. intros fs ind b0 x b1 Hx.
    destruct (Htrain fs ind None b0) as (? & ? & Hok). congruence.
Qed.
End multi_claims.

(** ** The claims on the concrete training sets *)

Lemma memo_base_total : base_total (C:=memo.classifier).
Proof. split; intros; eexists; [|eexists]; reflexivity. Defined.

Lemma one_against_one_apply_votes_witness :
  ∃ votes label name,
    one_against_one_model.tally (X:=string) 20 demo.one_model =
      (inr votes, demo.one_model) ∧
    votes = vote_count (one_against_one_model.models demo.one_model) 20 3 <$> seq 0 3 ∧
    one_against_one_model.apply (X:=string) 20 demo.one_model =
      (inr name, demo.one_model) ∧
    one_against_one_model.names demo.one_model !! label = Some name ∧
    is_argmax votes label.
Proof.
  apply (one_against_one_apply_votes (N:=memo.normaliser)
    demo.options demo.features demo.labels [] demo.one_model demo.trained_base 20).
  - apply dense_normaliser_spec.
  - vm_compute. reflexivity.
Defined.

Lemma one_against_one_tally_total_witness :
  ∃ votes,
    one_against_one_model.tally (X:=string) 20 demo.one_model =
      (inr votes, demo.one_model) ∧
    length votes = 3 ∧ sum_list votes = 3 * (3 - 1) / 2 ∧
    Forall (λ v, v ≤ 3 - 1) votes.
Proof.
  apply (one_against_one_tally_total (N:=memo.normaliser)
    demo.options demo.features demo.labels [] demo.one_model demo.trained_base 20).
  vm_compute. reflexivity.
Defined.



Lemma one_against_one_train_pair_subset_witness :
  length demo.features = length [0; 0; 1; 1; 2] ∧
  pair_trained (C:=memo.classifier) demo.features [0; 0; 1; 1; 2] 0 1
    (entry (one_against_one_model.models demo.one_model) 0 1).
Proof.
  apply (one_against_one_train_pair_subset (N:=memo.normaliser)
    demo.options demo.features demo.labels [] [0; 0; 1; 1; 2] [5; 7; 9]
    demo.one_model demo.trained_base 0 1).
  - reflexivity.
  - vm_compute. reflexivity.
  - simpl. lia.
Defined.

Lemma train_sub_model_counts_witness :
  (∃ m b', one_against_rest.train demo.options demo.features demo.labels false [] =
     (inr m, b') ∧ length (one_against_rest_model.models m) = 3) ∧
  (∃ m b', one_against_one.train demo.options demo.features demo.labels [] =
     (inr m, b') ∧
     length (sub_models (one_against_one_model.models m)) = 3 * (3 - 1) / 2).
Proof.
  destruct (train_sub_model_counts (N:=memo.normaliser)
    demo.options demo.features demo.labels false [] 3)
    as (Hrest & Hone & Hrest_total & Hone_total).
  - apply dense_normaliser_spec.
  - reflexivity.
  - lia.
  - split.
    + destruct (Hrest_total memo_base_total) as (m & b' & Hrun).
      exists m, b'. split; [done|]. by destruct (Hrest m b' Hrun).
    + destruct (Hone_total memo_base_total eq_refl) as (m & b' & Hrun).
      exists m, b'. split; [done|]. by destruct (Hone m b' Hrun).
Defined.

Lemma one_against_rest_multi_label_universe_witness :
  dom (one_against_rest_multi_model.models demo.multi_model) =
    ⋃ (list_to_set <$> demo.multi_labels).
Proof.
  destruct (one_against_rest_multi_label_universe (X:=string)
    demo.multi_features demo.multi_labels false []) as [Hkeys _].
  destruct (Hkeys demo.multi_model []) as [Hdom _]; [|exact Hdom].
  vm_compute. reflexivity.
Defined.

(** * Further properties *)

(** The name table gives back the label of every instance. *)
Lemma normalise_name {L X} (norm : list L → X + (list nat * list L))
    labels nl ns p c lab :
  normalise_spec norm → norm labels = inr (nl, ns) →
  nl !! p = Some c → labels !! p = Some lab → ns !! c = Some lab.
Proof.
  intros Hspec Hnorm Hc Hlab.
  destruct (normalise_facts _ _ _ _ Hspec Hnorm) as (_ & _ & _ & H2).
  destruct (Forall2_lookup_l _ _ _ _ _ H2 Hc) as (lab' & Hlab' & Hname).
  congruence.
Qed.

Lemma normalise_name_elem {L X} (norm : list L → X + (list nat * list L))
    labels nl ns c lab :
  normalise_spec norm → norm labels = inr (nl, ns) →
  ns !! c = Some lab → lab ∈ labels.
Proof.
  intros Hspec Hnorm Hc.
  destruct (normalise_facts _ _ _ _ Hspec Hnorm) as (_ & _ & Hin & _).
  by eapply Hin, list_elem_of_lookup_2.
Qed.

Section rest_extra.
Context {L Feat SubModel Base K V X : Type}.
Context {C : Classifier Feat SubModel Base K V X} {N : Normaliser L X}.
Import one_against_rest_model.

(** X1. Round trip of [one_against_rest]: when the sub-model of the class of
    a training instance is the only one that fires, [apply] returns the
    label of that instance as it was given to [train]. *)
Theorem one_against_rest_round_trip options features (labels : list L) fl
    b m b' nl ns feats p c lab :
  normalise_spec normaliselabels →
  one_against_rest.train options features labels fl b = (inr m, b') →
  normaliselabels labels = inr (nl, ns) →
  nl !! p = Some c → labels !! p = Some lab →
  rest_fires m feats c → (∀ k, rest_fires m feats k → k = c) →
  apply feats m = (inr lab, m).
Proof.
  intros Hspec Hrun Hnorm Hc Hlab Hfire Huniq.
  destruct (rest_train_returns _ _ _ _ _ _ _ Hrun)
    as (nl' & ns' & Hnorm' & _ & Hns & _ & Hlen & _).
  rewrite Hnorm in Hnorm'. injection Hnorm' as <- <-.
  pose proof (normalise_nclasses _ _ _ _ Hspec Hnorm) as Hnames.
  destruct (rest_apply_spec (X:=X) m feats)
    as (label & name & Happ & Hname & _ & Hlow); [lia|rewrite Hns; lia|].
  destruct (Hlow c Hfire) as [Hl%Huniq _]. subst label.
  rewrite Happ. do 2 f_equal. rewrite Hns in Hname.
  pose proof (normalise_name _ _ _ _ _ _ _ Hspec Hnorm Hc Hlab). congruence.
Qed.
End rest_extra.

Section one_extra.
Context {L Feat SubModel Base K V X : Type}.
Context {C : Classifier Feat SubModel Base K V X} {N : Normaliser L X}.
Import one_against_one_model.

(** A class that wins all its pairs has a vote from each other class. *)
Lemma vote_count_winner (tb : list (list (option SubModel))) feats n c :
  c < n →
  (∀ j, c < j < n → fires tb feats c j = true) →
  (∀ i, i < c → fires tb feats i c = false) →
  n - 1 ≤ vote_count tb feats n c.
Proof.
  intros Hc Hrow Hcol. unfold vote_count, votes_in.
  set (P := ((., c) <$> seq 0 c) ++ ((c,.) <$> seq (c + 1) (n - (c + 1)))).
  assert (length P = n - 1) as <-.
  { unfold P. rewrite length_app, !length_fmap, !length_seq. lia. }
  apply submseteq_length, NoDup_submseteq.
  - apply NoDup_app. split_and!.
    + apply NoDup_fmap_2_strong; [|apply NoDup_seq]. by intros ?? _ _ [= ->].
    + intros [i j] (i' & [= -> ->] & Hi%elem_of_seq)%list_elem_of_fmap
        (j' & [= -> ->] & Hj%elem_of_seq)%list_elem_of_fmap. lia.
    + apply NoDup_fmap_2_strong; [|apply NoDup_seq]. by intros ?? _ _ [= ->].
  - intros [i j] [Hin|Hin]%elem_of_app; apply list_elem_of_filter.
    + apply list_elem_of_fmap in Hin as (i' & [= -> ->] & Hi%elem_of_seq).
      split; [|apply elem_of_pairs; lia].
      unfold vote. simpl. rewrite Hcol by lia. done.
    + apply list_elem_of_fmap in Hin as (j' & [= -> ->] & Hj%elem_of_seq).
      split; [|apply elem_of_pairs; lia].
      unfold vote. simpl. rewrite Hrow by lia. done.
Qed.

(** A class that loses a pair has at most [n - 2] votes. *)
Lemma vote_count_loser (tb : list (list (option SubModel))) feats n c k :
  c < n → k < n → k ≠ c →
  (∀ j, c < j < n → fires tb feats c j = true) →
  (∀ i, i < c → fires tb feats i c = false) →
  vote_count tb feats n k ≤ n - 2.
Proof.
  intros Hc Hkn Hk Hrow Hcol. unfold vote_count, votes_in.
  set (W := filter (λ p, vote tb feats p = k) (pairs n)).
  set (g := λ p : nat * nat, if decide (p.1 = k) then p.2 - 1 else p.1).
  assert (∀ p, p ∈ W → p.1 < p.2 < n ∧
    ((p.1 = k ∧ p.2 ≠ c) ∨ (p.2 = k ∧ p.1 ≠ c))) as HW.
  { intros [i j] [Hv Hp]%list_elem_of_filter. apply elem_of_pairs in Hp.
    split; [done|]. unfold vote in Hv. simpl in *.
    destruct (fires tb feats i j) eqn:Hf; [left|right]; (split; [done|]);
      intros ->.
    - rewrite Hcol in Hf by lia. done.
    - rewrite Hrow in Hf by lia. done. }
  set (v0 := if decide (k < c) then c - 1 else c).
  assert (length (v0 :: (g <$> W)) ≤ length (seq 0 (n - 1))) as Hle.
  { apply submseteq_length, NoDup_submseteq.
    - apply NoDup_cons. split.
      + intros (p & Hv0 & Hp)%list_elem_of_fmap. apply HW in Hp.
        unfold g, v0 in Hv0. repeat case_decide; lia.
      + apply NoDup_fmap_2_strong; [|apply NoDup_filter, NoDup_pairs].
        intros [i j] [i' j'] Hp Hp' Hg. apply HW in Hp, Hp'. unfold g in Hg.
        simpl in *. repeat case_decide; f_equal; lia.
    - intros x [->|(p & -> & Hp)%list_elem_of_fmap]%elem_of_cons;
        apply elem_of_seq.
      + unfold v0. case_decide; lia.
      + apply HW in Hp. unfold g. case_decide; lia. }
  simpl in Hle. rewrite length_fmap, length_seq in Hle. lia.
Qed.

(** X3. A class that wins all its pairs is the one [apply] returns: when,
    for the class of a training instance, every sub-model of a pair with a
    higher class fires and every sub-model of a pair with a lower class does
    not, [apply] returns the label of that instance as it was given to
    [train]. *)
Theorem one_against_one_winner_of_all_pairs options features (labels : list L)
    b m b' nl ns feats p c lab :
  normalise_spec normaliselabels →
  one_against_one.train options features labels b = (inr m, b') →
  normaliselabels labels = inr (nl, ns) →
  nl !! p = Some c → labels !! p = Some lab →
  (∀ j, c < j < nclasses m → fires (models m) feats c j = true) →
  (∀ i, i < c → fires (models m) feats i c = false) →
  apply feats m = (inr lab, m).
Proof.
  intros Hspec Hrun Hnorm Hc Hlab Hrow Hcol.
  destruct (one_train_filled _ _ _ _ _ _ Hrun) as [Hnc Hfilled].
  destruct (one_train_returns _ _ _ _ _ _ Hrun)
    as (nl' & ns' & Hnorm' & _ & Hns & Hncl & _).
  rewrite Hnorm in Hnorm'. injection Hnorm' as <- <-.
  pose proof (normalise_nclasses _ _ _ _ Hspec Hnorm) as Hnames.
  assert (c < nclasses m) as Hcn.
  { rewrite Hncl, Hnames. eapply normalise_bound; [done..|].
    by eapply list_elem_of_lookup_2. }
  destruct (wp_total _ _ _ (tally_wp (X:=X) feats m Hfilled))
    as (votes & ? & Htally & -> & Hlen & Hvotes & _).
  destruct (argmax_spec (X:=X) votes) as (label & Hargmax & Hlabel).
  { intros ->. simpl in Hlen. lia. }
  destruct Hlabel as (rv & Hrv & Hmax & _).
  pose proof (lookup_lt_Some _ _ _ Hrv) as Hlt. rewrite Hlen in Hlt.
  assert (label = c) as ->.
  { destruct (decide (label = c)) as [|Hne]; [done|]. exfalso.
    pose proof (Hmax c _ (Hvotes c Hcn)) as Hge.
    rewrite Hvotes in Hrv by done. injection Hrv as <-.
    pose proof (vote_count_winner (models m) feats _ c Hcn Hrow Hcol).
    pose proof (vote_count_loser (models m) feats (nclasses m) c label
      Hcn Hlt Hne Hrow Hcol). unfold vote_count in *. lia. }
  unfold apply, bind. rewrite Htally. unfold gets, lift.
  rewrite Hargmax. unfold index. rewrite Hns.
  by rewrite (normalise_name _ _ _ _ _ _ _ Hspec Hnorm Hc Hlab).
Qed.
End one_extra.

Section exn_extra.
Context {L Feat SubModel Base K V X : Type}.
Context {C : Classifier Feat SubModel Base K V X} {N : Normaliser L X}.




End exn_extra.



Lemma for_acc_ext {X S A B} (xs : list A) (body body' : A → B → M X S B) acc s :
  (∀ x acc s, x ∈ xs → body x acc s = body' x acc s) →
  for_acc xs body acc s = for_acc xs body' acc s.
Proof.
  revert acc s. induction xs as [|x xs IH]; intros acc s Hext; [done|].
  simpl. unfold bind. rewrite Hext by left.
  destruct (body' x acc s) as [[e|a] s']; [done|].
  apply IH. intros. apply Hext. by right.
Qed.

Section multi_extra.
Context `{Countable L} {Feat SubModel Base K V X : Type}.
Context {C : Classifier Feat SubModel Base K V X}.
Import one_against_rest_multi_model.

(** X8. In a model that [one_against_rest_multi.train] returned, the
    sub-model of a label is what the base classifier returned when trained
    on all the instances, without the keyword [normalisedlabels], against the
    indicator that has one entry per instance, 1 where the label is among the
    labels of the instance and 0 elsewhere. *)
Theorem one_against_rest_multi_train_indicator features
    (labels : list (list L)) fl b m b' lab c :
  one_against_rest_multi.train features labels fl b = (inr m, b') →
  models m !! lab = Some c →
  let ind := one_against_rest_multi.in_indicator lab labels in
  (∃ b1 b2, base_train features ind None b1 = (inr c, b2)) ∧
  length ind = length labels ∧
  ∀ p ls, labels !! p = Some ls →
    ind !! p = Some (if decide (lab ∈ ls) then 1%Z else 0%Z).
Proof.
  intros Hrun Hc ind. split_and!.
  - pose proof (wp_returns _ _ _ (λ _ _, True) _ _
      (multi_train_wp features labels fl b _ (λ _ _ _ _ _ _, I)) Hrun)
      as [_ Hms]. by apply Hms.
  - unfold ind, one_against_rest_multi.in_indicator. by rewrite length_fmap.
  - intros p ls Hp. unfold ind, one_against_rest_multi.in_indicator.
    rewrite list_lookup_fmap, Hp. simpl. by case_bool_decide; case_decide.
Qed.

(** X9. When no instance has a label, and so on an empty training set,
    [train] returns the model with no sub-model without calling the base
    classifier, and [apply] of that model returns no label. *)
Theorem one_against_rest_multi_no_labels features (labels : list (list L))
    fl b feats :
  (∀ ls, ls ∈ labels → ls = []) →
  one_against_rest_multi.train features labels fl b = (inr (init ∅), b) ∧
  apply (X:=X) feats (init (∅ : gmap L SubModel)) = (inr [], init ∅).
Proof.
  intros Hnone. split.
  - assert (one_against_rest_multi.all_labels labels = ∅) as Hempty.
    { apply set_eq. intros lab. rewrite elem_of_all_labels. split.
      - intros (ls & Hls & Hlab). rewrite (Hnone ls Hls) in Hlab.
        by apply elem_of_nil in Hlab.
      - by intros ?%elem_of_empty. }
    unfold one_against_rest_multi.train. rewrite Hempty, elements_empty. done.
  - unfold apply, bind, gets, ret. simpl. by rewrite map_to_list_empty.
Qed.

(** X10. [train] takes the labels of an instance as a set.  For two
    training sets whose instances have the same labels, in whatever order
    and however often repeated, the models that [train] returns have the
    same keys, and the sub-model of a key in the one was trained against the
    very indicator that the other training set gives for that key.  Nothing
    is said of the order in which the sub-models are trained. *)
Theorem one_against_rest_multi_train_label_sets features
    (labels labels' : list (list L)) fl fl' b0 b0' m b1 m' b1' :
  Forall2 (λ ls ls', ∀ lab, lab ∈ ls ↔ lab ∈ ls') labels labels' →
  one_against_rest_multi.train features labels fl b0 = (inr m, b1) →
  one_against_rest_multi.train features labels' fl' b0' = (inr m', b1') →
  dom (models m) = dom (models m') ∧
  ∀ lab c', models m' !! lab = Some c' →
    one_against_rest_multi.in_indicator lab labels' =
      one_against_rest_multi.in_indicator lab labels ∧
    ∃ s1 s2, base_train features
      (one_against_rest_multi.in_indicator lab labels) None s1 = (inr c', s2).
Proof.
  intros Hsame.
  assert (∀ lab, one_against_rest_multi.in_indicator lab labels' =
                 one_against_rest_multi.in_indicator lab labels) as Hind.
  { intros lab. unfold one_against_rest_multi.in_indicator.
    induction Hsame as [|ls ls' labels labels' Hiff _ IH]; [done|].
    csimpl. rewrite IH. by rewrite (bool_decide_ext _ _ (Hiff lab)). }
  intros Hrun Hrun'.
  pose proof (wp_returns _ _ _ (λ _ _, True) _ _
    (multi_train_wp features labels fl b0 _ (λ _ _ _ _ _ _, I)) Hrun)
    as [Hdom _].
  pose proof (wp_returns _ _ _ (λ _ _, True) _ _
    (multi_train_wp features labels' fl' b0' _ (λ _ _ _ _ _ _, I)) Hrun')
    as [Hdom' Hms'].
  split.
  - rewrite Hdom, Hdom'. apply set_eq. intros lab.
    rewrite !elem_of_all_labels. split.
    + intros (ls & (p & Hp)%list_elem_of_lookup & Hlab).
      destruct (Forall2_lookup_l _ _ _ _ _ Hsame Hp) as (ls' & Hp' & Hiff).
      exists ls'. split; [by eapply list_elem_of_lookup_2|by apply Hiff].
    + intros (ls' & (p & Hp')%list_elem_of_lookup & Hlab).
      destruct (Forall2_lookup_r _ _ _ _ _ Hsame Hp') as (ls & Hp & Hiff).
      exists ls. split; [by eapply list_elem_of_lookup_2|by apply Hiff].
  - intros lab c' Hc'. split; [done|]. rewrite <- Hind. by apply Hms'.
Qed.
End multi_extra.

Lemma one_against_rest_multi_train_indicator_witness :
  (∃ b1 b2, base_train (Classifier:=memo.classifier) demo.multi_features
     [1%Z; 1%Z; 0%Z] None b1 = (inr [(10, 1%Z); (11, 1%Z); (12, 0%Z)], b2)).
Proof.
  destruct (one_against_rest_multi_train_indicator (X:=string)
    demo.multi_features demo.multi_labels false [] demo.multi_model [] 2
    [(10, 1%Z); (11, 1%Z); (12, 0%Z)]) as [Htrained _].
  - vm_compute. reflexivity.
  - vm_compute. reflexivity.
  - exact Htrained.
Defined.

Lemma one_against_rest_multi_no_labels_witness :
  one_against_rest_multi.train (L:=nat) demo.multi_features [[]; []; []] false [] =
    (inr (one_against_rest_multi_model.init ∅), []).
Proof.
  apply (one_against_rest_multi_no_labels (X:=string) demo.multi_features
    [[]; []; []] false [] 10).
  intros ls Hls. rewrite !elem_of_cons, elem_of_nil in Hls. tauto.
Defined.

Lemma one_against_rest_multi_train_label_sets_witness :
  dom (one_against_rest_multi_model.models demo.multi_model) =
  dom (one_against_rest_multi_model.models
         (one_against_rest_multi_model.init (L:=nat) (SubModel:=memo.sub_model)
            (<[1 := [(10, 1%Z); (11, 0%Z); (12, 0%Z)]]>
               (<[2 := [(10, 1%Z); (11, 1%Z); (12, 0%Z)]]>
                  (<[3 := [(10, 0%Z); (11, 0%Z); (12, 1%Z)]]> ∅))))).
Proof.
  eapply (one_against_rest_multi_train_label_sets (X:=string)
    demo.multi_features demo.multi_labels [[2; 1; 2]; [2]; [3; 3]]
    false true [] [] demo.multi_model [] _ []).
  - unfold demo.multi_labels.
    constructor; [|constructor; [|constructor; [|constructor]]]; intros lab;
      rewrite !elem_of_cons, !elem_of_nil; tauto.
  - vm_compute. reflexivity.
  - vm_compute. reflexivity.
Defined.

(** With one label only, the normaliser has one class. *)
Lemma normalise_single {L X} (norm : list L → X + (list nat * list L))
    (labels : list L) lab :
  normalise_spec norm → labels ≠ [] → (∀ l, l ∈ labels → l = lab) →
  ∃ nl, norm labels = inr (nl, [lab]) ∧ nl ≠ [] ∧ max_list nl = 0.
Proof.
  intros Hspec Hne Hall. pose proof (Hspec labels) as Hl.
  destruct (norm labels) as [x|[nl ns]] eqn:Hnorm; [done|].
  destruct Hl as (_ & Hnd & Hin & _).
  assert (ns = [lab]) as ->.
  { destruct labels as [|l0 labels]; [done|].
    assert (l0 = lab) as -> by (apply Hall; left).
    assert (lab ∈ ns) as Hlab by (apply Hin; left).
    assert (∀ x, x ∈ ns → x = lab) as Hns by (intros x ?%Hin; by apply Hall).
    destruct ns as [|a [|a' ns]].
    - by apply elem_of_nil in Hlab.
    - f_equal. apply Hns. left.
    - apply NoDup_cons in Hnd as [Hnotin _]. destruct Hnotin.
      rewrite (Hns a) by left. rewrite (Hns a') by (right; left). left. }
  exists nl. split; [done|].
  pose proof (normalise_nclasses _ _ _ _ Hspec Hnorm) as Hn.
  pose proof (normalise_nonempty _ _ _ _ Hspec Hnorm). simpl in Hn.
  split; [done|lia].
Qed.

Section single_class.
Context {L Feat SubModel Base K V X : Type}.
Context {C : Classifier Feat SubModel Base K V X} {N : Normaliser L X}.

(** X11. When all the instances have one label, [one_against_one.train]
    returns a model without any sub-model and has not called the base
    classifier, not even to set its options; [apply] of that model returns
    the label for every input. *)
Theorem one_against_one_single_class options features (labels : list L) b lab :
  normalise_spec normaliselabels → labels ≠ [] →
  (∀ l, l ∈ labels → l = lab) →
  ∃ m, one_against_one.train options features labels b = (inr m, b) ∧
    sub_models (one_against_one_model.models m) = [] ∧
    ∀ feats, one_against_one_model.apply feats m = (inr lab, m).
Proof.
  intros Hspec Hne Hall.
  destruct (normalise_single _ labels lab Hspec Hne Hall)
    as (nl & Hnorm & Hnl & Hmax).
  exists (one_against_one_model.init [[None]] [lab]). split; [|done].
  unfold one_against_one.train, bind, upstream, lift.
  rewrite Hnorm, array_max_nonempty by done. rewrite Hmax. done.
Qed.

(** X12. When all the instances have one label, [apply] of the model of
    [one_against_rest] returns the label for every input, whether its one
    sub-model fires or not. *)
Theorem one_against_rest_single_class options features (labels : list L) fl
    b m b' lab feats :
  normalise_spec normaliselabels →
  (∀ l, l ∈ labels → l = lab) →
  one_against_rest.train options features labels fl b = (inr m, b') →
  one_against_rest_model.apply feats m = (inr lab, m).
Proof.
  intros Hspec Hall Hrun.
  destruct (rest_train_returns _ _ _ _ _ _ _ Hrun)
    as (nl & ns & Hnorm & _ & Hns & _ & Hlen & _).
  pose proof (normalise_nclasses _ _ _ _ Hspec Hnorm) as Hnames.
  destruct (rest_apply_spec (X:=X) m feats)
    as (label & name & Happ & Hname & _); [lia|rewrite Hns; lia|].
  rewrite Happ. do 2 f_equal. apply Hall. rewrite Hns in Hname.
  by eapply normalise_name_elem.
Qed.
End single_class.

Lemma wp_post {X S A} (m : M X S A) s (Φ Φ' : A → S → Prop) E :
  wp m s Φ E → (∀ a s', Φ a s' → Φ' a s') → wp m s Φ' E.
Proof. intros Hwp HΦ. by eapply wp_mono. Qed.

Section hole.
Context {L Feat SubModel Base K V X : Type}.
Context {C : Classifier Feat SubModel Base K V X}.
Import one_against_one_model.

End hole.

Lemma one_against_one_single_class_witness :
  ∃ m, one_against_one.train demo.options demo.features [7; 7; 7] [] = (inr m, []) ∧
    sub_models (one_against_one_model.models m) = [] ∧
    ∀ feats, one_against_one_model.apply (X:=string) feats m = (inr 7, m).
Proof.
  apply (one_against_one_single_class (N:=memo.normaliser)).
  - apply dense_normaliser_spec.
  - done.
  - intros l Hl. rewrite !elem_of_cons, elem_of_nil in Hl. lia.
Defined.

Lemma one_against_rest_single_class_witness :
  one_against_rest_model.apply (X:=string) 99
    (one_against_rest_model.init [[(1, 1%Z); (2, 1%Z)]] [7]) =
  (inr 7, one_against_rest_model.init [[(1, 1%Z); (2, 1%Z)]] [7]).
Proof.
  apply (one_against_rest_single_class (N:=memo.normaliser)
    demo.options [1; 2] [7; 7] true [] _ [("C"%string, 1%Z)] 7 99).
  - apply dense_normaliser_spec.
  - intros l Hl. rewrite !elem_of_cons, elem_of_nil in Hl. lia.
  - reflexivity.
Defined.


Section options.
Context `{Countable K} {L Feat SubModel Base V X : Type}.
Context {C : Classifier Feat SubModel Base K V X} {N : Normaliser L X}.

(** After the propagation every option of the dictionary is in force. *)
Lemma propagate_options_store (get : Base → K → option V) (opts : gmap K V) b :
  option_store get →
  wp (propagate_options (map_to_list opts)) b
    (λ _ b1, ∀ k v, opts !! k = Some v → get b1 k = Some v) (λ _ _, True).
Proof.
  intros Hstore. unfold propagate_options, for_each.
  eapply wp_post; [apply (wp_for_acc _ _ _ _ (λ pre _ s,
    ∀ k v, (k, v) ∈ pre → get s k = Some v))|].
  - by intros k v ?%elem_of_nil.
  - intros pre [k v] post [] s Hitems Hpre. apply wp_upstream.
    destruct (base_set_option k v s) as [[x|[]] s'] eqn:Hset; [done|].
    destruct (Hstore k v s s' Hset) as [Hk Hother].
    intros k' v' [Hin|Hin%list_elem_of_singleton]%elem_of_app.
    + rewrite Hother; [by apply Hpre|]. intros ->.
      pose proof (NoDup_fst_map_to_list opts) as Hnd.
      rewrite Hitems, fmap_app, fmap_cons in Hnd.
      apply NoDup_app in Hnd as (_ & Hnd & _).
      apply (Hnd k); [|left]. apply list_elem_of_fmap. by exists (k, v').
    + by injection Hin as -> ->.
  - intros [] s Hall k v Hkv. by apply Hall, elem_of_map_to_list.
Qed.

(** In [one_against_rest.train] every sub-model is trained in a state that
    the propagation of the options has just left. *)
Lemma rest_train_state_wp options features (labels : list L) fl b
    (P : Base → Prop) :
  (∀ b, wp (propagate_options options) b (λ _ b1, P b1) (λ _ _, True)) →
  wp (one_against_rest.train options features labels fl) b
    (λ m _, ∀ nl ns, normaliselabels labels = inr (nl, ns) →
       ∀ i, i < length (one_against_rest_model.models m) → ∃ c b1 b2,
         one_against_rest_model.models m !! i = Some c ∧ P b1 ∧
         base_train features (eq_indicator nl i) (Some true) b1 = (inr c, b2))
    (λ _ _, True).
Proof.
  intros Hprop. unfold one_against_rest.train.
  apply wp_bind, wp_upstream.
  destruct (normaliselabels labels) as [x|[nl ns]] eqn:Hnorm; [done|].
  apply wp_bind, wp_lift. destruct (array_max nl) as [e|mx]; [done|].
  cbv zeta. apply wp_bind.
  eapply wp_post; [apply (wp_for_acc _ _ _ _ (λ pre (ms : list SubModel) _,
    length ms = length pre ∧
    ∀ i, i < length pre → ∃ c b1 b2, ms !! i = Some c ∧ P b1 ∧
      base_train features (eq_indicator nl i) (Some true) b1 = (inr c, b2)))|].
  - split; [done|]. simpl. lia.
  - intros pre i post ms s Hxs [Hlen Hms].
    assert (i = length pre) as ->.
    { unfold xrange in Hxs. apply (f_equal (.!! length pre)) in Hxs.
      rewrite list_lookup_middle in Hxs by done.
      apply lookup_seq in Hxs. lia. }
    apply wp_bind. eapply wp_post; [apply Hprop|].
    intros [] s' HP. apply wp_bind, wp_upstream.
    destruct (base_train _ _ _ s') as [[x|c] s''] eqn:Htrain; [done|].
    apply wp_ret. rewrite !length_app. simpl. split; [lia|].
    intros i Hi. destruct (decide (i < length pre)) as [Hlt|Hge].
    + destruct (Hms i Hlt) as (c' & b1 & b2 & Hc' & Hb). exists c', b1, b2.
      split; [|done]. by apply lookup_app_l_Some.
    + assert (i = length pre) as -> by lia. exists c, s', s''.
      split; [|done]. rewrite lookup_app_r by lia. by rewrite Hlen, Nat.sub_diag.
  - intros ms s [Hlen Hms]. apply wp_ret. simpl.
    intros nl' ns' [= <- <-] i Hi. apply Hms. lia.
Qed.

(** X14. An option set on a [one_against_rest] learner is in force in the
    base classifier whenever a sub-model is trained, with the value set
    last, and so is every other option of the learner: for a base classifier
    that keeps its options, each sub-model of the returned model was trained
    in a state in which they all read as the learner has them, whatever the
    training of the sub-models before did to that state. *)
Theorem one_against_rest_options_in_force (get : Base → K → option V)
    (self self' : learner.t K V) k v features (labels : list L) fl
    b m b' nl ns i :
  option_store get →
  learner.set_option (X:=X) k v self = (inr (), self') →
  one_against_rest.train (learner.iteritems self') features labels fl b =
    (inr m, b') →
  normaliselabels labels = inr (nl, ns) →
  i < length (one_against_rest_model.models m) →
  ∃ c b1 b2,
    one_against_rest_model.models m !! i = Some c ∧
    base_train features (eq_indicator nl i) (Some true) b1 = (inr c, b2) ∧
    get b1 k = Some v ∧
    ∀ k' v', k' ≠ k → learner.options self !! k' = Some v' →
      get b1 k' = Some v'.
Proof.
  intros Hstore [= <-] Hrun Hnorm Hi.
  pose proof (wp_returns _ _ _ _ _ _
    (rest_train_state_wp _ features labels fl b _
       (λ b0, propagate_options_store get _ b0 Hstore)) Hrun nl ns Hnorm i Hi)
    as (c & b1 & b2 & Hc & Hopts & Htrain).
  exists c, b1, b2. simpl in Hopts. split_and!; [done..| |].
  - apply Hopts. by rewrite lookup_insert_eq.
  - intros k' v' Hne Hk'. apply Hopts. by rewrite lookup_insert_ne.
Qed.

(** In [one_against_one.train] too every sub-model is trained in a state
    that the propagation of the options has just left. *)
Lemma one_train_state_wp options features (labels : list L) b
    (P : Base → Prop) :
  (∀ b, wp (propagate_options options) b (λ _ b1, P b1) (λ _ _, True)) →
  wp (one_against_one.train options features labels) b
    (λ m _, ∀ nl ns, normaliselabels labels = inr (nl, ns) →
       ∀ i j, i < j < one_against_one_model.nclasses m → ∃ c b1 b2,
         entry (one_against_one_model.models m) i j = Some (Some c) ∧ P b1 ∧
         base_train (pair_subset features nl i j).*1
           ((λ p, Z.b2z (bool_decide (p.2 = i))) <$> pair_subset features nl i j)
           (Some true) b1 = (inr c, b2))
    (λ _ _, True).
Proof.
  intros Hprop. unfold one_against_one.train.
  apply wp_bind, wp_upstream.
  destruct (normaliselabels labels) as [x|[nl ns]] eqn:Hnorm; [done|].
  apply wp_bind, wp_lift. destruct (array_max nl) as [e|mx]; [done|].
  cbv zeta. set (n := mx + 1). apply wp_bind, wp_for_nested.
  eapply wp_post; [apply (wp_for_acc _ _ _ _
    (λ pre (t : list (list (option SubModel))) _,
       length t = n ∧
       ∀ i j, (i, j) ∈ pre → ∃ c b1 b2,
         entry t i j = Some (Some c) ∧ P b1 ∧
         base_train (pair_subset features nl i j).*1
           ((λ p, Z.b2z (bool_decide (p.2 = i))) <$> pair_subset features nl i j)
           (Some true) b1 = (inr c, b2)))|].
  - split; [by rewrite length_replicate|]. by intros i j ?%elem_of_nil.
  - intros pre [i j] post t s Hpairs [Hlen Hpre]. simpl.
    unfold one_against_one.train_pair.
    apply wp_bind. eapply wp_post; [apply Hprop|].
    intros [] s' HP. cbv zeta. apply wp_bind, wp_assert; [|done].
    intros _. apply wp_bind, wp_lift. unfold mask_select.
    rewrite length_or_eq_mask.
    destruct (decide (length nl = length features)) as [Hfl|Hfl]; [|done].
    apply wp_bind, wp_lift. rewrite decide_True by done.
    destruct (mask_filter_pair_subset features nl i j) as [Hfs Hls]; [done|].
    cbv zeta in Hfs, Hls. rewrite Hfs, Hls.
    apply wp_bind, wp_upstream.
    destruct (base_train _ _ _ s') as [[x|c] s''] eqn:Htrain; [done|].
    apply wp_lift. unfold table_set.
    destruct (t !! i) as [row|] eqn:Hrow; [|done]. case_decide; [|done].
    split; [by rewrite length_insert|].
    intros i' j' [Hin|Hin%list_elem_of_singleton]%elem_of_app.
    + destruct (decide ((i', j') = (i, j))) as [[= -> ->]|Hne].
      * rewrite entry_insert_eq by done. exists c, s', s''.
        split_and!; [done..|]. rewrite <- Htrain. f_equal.
        unfold eq_indicator. by rewrite <- list_fmap_compose.
      * rewrite entry_insert_ne by done. by apply Hpre.
    + injection Hin as -> ->. rewrite entry_insert_eq by done.
      exists c, s', s''. split_and!; [done..|]. rewrite <- Htrain. f_equal.
      unfold eq_indicator. by rewrite <- list_fmap_compose.
  - intros t s [Hlen Hall]. apply wp_ret. simpl.
    intros nl' ns' [= <- <-] i j Hij. apply Hall. rewrite Hlen in Hij.
    by apply (elem_of_pairs n).
Qed.

(** X15. The same for a [one_against_one] learner: each sub-model of the
    table was trained in a state of the base classifier in which the option
    set last, and every other option of the learner, read as the learner
    has them. *)
Theorem one_against_one_options_in_force (get : Base → K → option V)
    (self self' : learner.t K V) k v features (labels : list L)
    b m b' i j :
  option_store get →
  learner.set_option (X:=X) k v self = (inr (), self') →
  one_against_one.train (learner.iteritems self') features labels b =
    (inr m, b') →
  i < j < one_against_one_model.nclasses m →
  ∃ c b1 b2 fs ind,
    entry (one_against_one_model.models m) i j = Some (Some c) ∧
    base_train fs ind (Some true) b1 = (inr c, b2) ∧
    get b1 k = Some v ∧
    ∀ k' v', k' ≠ k → learner.options self !! k' = Some v' →
      get b1 k' = Some v'.
Proof.
  intros Hstore [= <-] Hrun Hij.
  destruct (one_train_returns _ _ _ _ _ _ Hrun) as (nl & ns & Hnorm & _).
  pose proof (wp_returns _ _ _ _ _ _
    (one_train_state_wp _ features labels b _
       (λ b0, propagate_options_store get _ b0 Hstore)) Hrun nl ns Hnorm i j Hij)
    as (c & b1 & b2 & Hc & Hopts & Htrain).
  eexists c, b1, b2, _, _. simpl in Hopts.
  split; [done|]. split; [exact Htrain|]. split.
  - apply Hopts. by rewrite lookup_insert_eq.
  - intros k' v' Hne Hk'. apply Hopts. by rewrite lookup_insert_ne.
Qed.
End options.

Lemma memo_option_store : option_store (C:=memo.classifier) memo_get.
Proof.
  intros k v b b' [= <-]. simpl. split.
  - by rewrite decide_True.
  - intros k' Hne. by rewrite decide_False.
Defined.

Lemma one_against_rest_options_in_force_witness :
  ∃ c b1 b2,
    one_against_rest_model.models demo.rest_model !! 1 = Some c ∧
    base_train (Classifier:=memo.classifier) demo.features
      (eq_indicator [0; 0; 1; 1; 2] 1) (Some true) b1 = (inr c, b2) ∧
    memo_get b1 "C"%string = Some 1%Z.
Proof.
  destruct (one_against_rest_options_in_force (N:=memo.normaliser) (X:=string)
    memo_get learner.init
    (learner.mk true ({[ "C"%string := 1%Z ]} : gmap string Z))
    "C"%string 1%Z demo.features demo.labels true [] demo.rest_model
    demo.trained_base [0; 0; 1; 1; 2] [5; 7; 9] 1)
    as (c & b1 & b2 & Hc & Htrain & Hget & _).
  - apply memo_option_store.
  - vm_compute. reflexivity.
  - vm_compute. reflexivity.
  - reflexivity.
  - simpl. lia.
  - exists c, b1, b2. auto.
Defined.

Lemma one_against_one_options_in_force_witness :
  ∃ c b1 b2 fs ind,
    entry (one_against_one_model.models demo.one_model) 0 2 = Some (Some c) ∧
    base_train (Classifier:=memo.classifier) fs ind (Some true) b1 = (inr c, b2) ∧
    memo_get b1 "C"%string = Some 1%Z.
Proof.
  destruct (one_against_one_options_in_force (N:=memo.normaliser) (X:=string)
    memo_get learner.init
    (learner.mk true ({[ "C"%string := 1%Z ]} : gmap string Z))
    "C"%string 1%Z demo.features demo.labels [] demo.one_model
    demo.trained_base 0 2)
    as (c & b1 & b2 & fs & ind & Hc & Htrain & Hget & _).
  - apply memo_option_store.
  - vm_compute. reflexivity.
  - vm_compute. reflexivity.
  - simpl. lia.
  - exists c, b1, b2, fs, ind. auto.
Defined.

Lemma one_against_rest_round_trip_witness :
  one_against_rest_model.apply (X:=string) 20 demo.rest_model =
    (inr 7, demo.rest_model).
Proof.
  apply (one_against_rest_round_trip (N:=memo.normaliser)
    demo.options demo.features demo.labels true [] demo.rest_model
    demo.trained_base [0; 0; 1; 1; 2] [5; 7; 9] 20 2 1 7).
  - apply dense_normaliser_spec.
  - vm_compute. reflexivity.
  - reflexivity.
  - reflexivity.
  - reflexivity.
  - eexists. split; [reflexivity|]. vm_compute. reflexivity.
  - intros k (c & Hc & Hfire). destruct k as [|[|[|k]]]; [| |..].
    + injection Hc as <-. vm_compute in Hfire. discriminate.
    + reflexivity.
    + injection Hc as <-. vm_compute in Hfire. discriminate.
    + discriminate.
Defined.

Lemma one_against_one_winner_of_all_pairs_witness :
  one_against_one_model.apply (X:=string) 20 demo.one_model =
    (inr 7, demo.one_model).
Proof.
  apply (one_against_one_winner_of_all_pairs (N:=memo.normaliser)
    demo.options demo.features demo.labels [] demo.one_model
    demo.trained_base [0; 0; 1; 1; 2] [5; 7; 9] 20 2 1 7).
  - apply dense_normaliser_spec.
  - vm_compute. reflexivity.
  - reflexivity.
  - reflexivity.
  - reflexivity.
  - intros j Hj. simpl in Hj. assert (j = 2) as -> by lia. vm_compute. reflexivity.
  - intros i Hi. assert (i = 0) as -> by lia. vm_compute. reflexivity.
Defined.

(** * [apply] with sub-models that may raise *)

Lemma run_bind_inr {X S A B} (m : M X S A) (f : A → M X S B) s a s' :
  m s = (inr a, s') → bind m f s = f a s'.
Proof. unfold bind. by intros ->. Qed.

Lemma run_bind_inl {X S A B} (m : M X S A) (f : A → M X S B) s e s' :
  m s = (inl e, s') → bind m f s = (inl e, s').
Proof. unfold bind. by intros ->. Qed.

Section raising_rest.
Context {L Feat SubModel X : Type} {A : Answering Feat SubModel X}.
Import one_against_rest_model.
Implicit Types (m : t L SubModel) (feats : Feat).

Lemma answers_step (c : SubModel) (ms : list SubModel) feats
    (acc : list bool) m :
  for_acc (X:=X) (c :: ms) (λ c vals,
    v <- upstream (λ s, (sub_answer c feats, s)) ;; ret (vals ++ [v])) acc m =
  match sub_answer c feats with
  | inl x => (inl (Upstream x), m)
  | inr v =>
      for_acc (X:=X) ms (λ c vals,
        v <- upstream (λ s, (sub_answer c feats, s)) ;; ret (vals ++ [v]))
        (acc ++ [v]) m
  end.
Proof.
  simpl. unfold bind, upstream, ret. by destruct (sub_answer c feats).
Qed.

(** The list comprehension: all the answers, or the exception of the first
    sub-model that raises. *)
Lemma answers_from (ms : list SubModel) feats (acc : list bool) m :
  (∃ vals, Forall2 (λ c v, sub_answer c feats = inr v) ms vals ∧
     for_acc (X:=X) ms (λ c vals,
       v <- upstream (λ s, (sub_answer c feats, s)) ;; ret (vals ++ [v]))
       acc m = (inr (acc ++ vals), m)) ∨
  (∃ k x, first_raises ms feats k x ∧
     for_acc (X:=X) ms (λ c vals,
       v <- upstream (λ s, (sub_answer c feats, s)) ;; ret (vals ++ [v]))
       acc m = (inl (Upstream x), m)).
Proof.
  revert acc. induction ms as [|c ms IH]; intros acc.
  - left. exists []. split; [constructor|]. by rewrite app_nil_r.
  - rewrite answers_step. destruct (sub_answer c feats) as [x|v] eqn:Hc.
    + right. exists 0, x. split; [|done].
      exists c. split_and!; [done..|]. intros k' c' Hk'. lia.
    + destruct (IH (acc ++ [v])) as [(vals & Hvals & ->)|(k & x & Hk & ->)].
      * left. exists (v :: vals). split; [by constructor|].
        by rewrite <- (assoc_L (++)).
      * right. exists (S k), x. split; [|done].
        destruct Hk as (c' & Hc' & Hx & Hbefore).
        exists c'. split_and!; [done..|].
        intros [|k'] c'' Hk' Hc''; simpl in Hc''.
        -- injection Hc'' as <-. eauto.
        -- apply (Hbefore k'); [lia|done].
Qed.

Lemma answers_spec (ms : list SubModel) feats m :
  (∃ vals, Forall2 (λ c v, sub_answer c feats = inr v) ms vals ∧
     raising.answers ms feats m = (inr vals, m)) ∨
  (∃ k x, first_raises ms feats k x ∧
     raising.answers ms feats m = (inl (Upstream x), m)).
Proof. apply (answers_from ms feats [] m). Qed.

(** What [apply] does on any model. *)
Lemma raising_rest_apply_spec m feats :
  (∃ k x, first_raises (models m) feats k x ∧
     raising.one_against_rest_model_apply feats m = (inl (Upstream x), m)) ∨
  ((∀ k c, models m !! k = Some c → ∃ v, sub_answer c feats = inr v) ∧
   ∃ label,
     ((∀ k, ¬ answer_fires m feats k) → label = 0) ∧
     (∀ k, answer_fires m feats k → answer_fires m feats label ∧ label ≤ k) ∧
     (label = 0 ∨ label < length (models m)) ∧
     raising.one_against_rest_model_apply feats m =
       (match names m !! label with
        | Some name => inr name
        | None => inl IndexError
        end, m)).
Proof.
  unfold raising.one_against_rest_model_apply.
  rewrite (run_bind_inr _ _ m (models m) m) by done.
  destruct (answers_spec (models m) feats m)
    as [(vals & Hvals & Hrun)|(k & x & Hk & Hrun)].
  - right. rewrite (run_bind_inr _ _ _ _ _ Hrun).
    assert (∀ k, vals !! k = Some true ↔ answer_fires m feats k) as Hfires.
    { intros k. unfold answer_fires. split.
      - intros Hk. destruct (Forall2_lookup_r _ _ _ _ _ Hvals Hk) as (c & Hc & Hv).
        eauto.
      - intros (c & Hc & Hv).
        destruct (Forall2_lookup_l _ _ _ _ _ Hvals Hc) as (v & Hk & Hv').
        congruence. }
    split.
    { intros k c Hc. destruct (Forall2_lookup_l _ _ _ _ _ Hvals Hc) as (v & _ & Hv).
      eauto. }
    pose proof (np_where_spec vals) as Hw.
    assert (∀ k, vals !! k = Some true → k < length (models m)) as Hlt.
    { intros k Hk%lookup_lt_Some. by rewrite (Forall2_length _ _ _ Hvals). }
    unfold bind, gets, lift, index, ret.
    destruct (np_where vals) as [|k [|k2 rest]].
    + exists 0. split_and!; [done| |by left|].
      * intros k Hk. apply Hfires in Hk. by apply Hw in Hk.
      * simpl. by destruct (names m !! 0).
    + destruct Hw as [Hk Hlow]. exists k. split_and!; [| |right; by apply Hlt|].
      * intros Hnone. by apply Hfires, Hnone in Hk.
      * intros k' Hk'. split; [by apply Hfires|]. by apply Hlow, Hfires.
      * simpl. by destruct (names m !! k).
    + destruct Hw as [Hk Hlow]. exists k. split_and!; [| |right; by apply Hlt|].
      * intros Hnone. by apply Hfires, Hnone in Hk.
      * intros k' Hk'. split; [by apply Hfires|]. by apply Hlow, Hfires.
      * simpl. by destruct (names m !! k).
  - left. exists k, x. split; [done|]. by rewrite (run_bind_inl _ _ _ _ _ Hrun).
Qed.

(** X16. [apply] of any [one_against_rest_model], trained or built by hand,
    with sub-models that answer a truth value or raise.  The model is left
    as it is.  When a sub-model raises, [apply] raises what the first of
    them raised; when all answer, [apply] chooses the lowest index whose
    sub-model fires, or 0 when none fires, and returns the name at that
    index, or raises [IndexError] when the name table has no entry there.
    It raises nothing else. *)
Theorem one_against_rest_apply_any m feats :
  (raising.one_against_rest_model_apply feats m).2 = m ∧
  ((∃ k x, first_raises (models m) feats k x ∧
      (raising.one_against_rest_model_apply feats m).1 = inl (Upstream x)) ∨
   ((∀ k c, models m !! k = Some c → ∃ v, sub_answer c feats = inr v) ∧
    ∃ label,
      ((∀ k, ¬ answer_fires m feats k) → label = 0) ∧
      (∀ k, answer_fires m feats k → answer_fires m feats label ∧ label ≤ k) ∧
      (raising.one_against_rest_model_apply feats m).1 =
        match names m !! label with
        | Some name => inr name
        | None => inl IndexError
        end)).
Proof.
  destruct (raising_rest_apply_spec m feats)
    as [(k & x & Hk & ->)|(Hall & label & H0 & Hlow & _ & ->)].
  - split; [done|]. left. eauto.
  - split; [done|]. right. split; [done|]. eauto.
Qed.
End raising_rest.

Section raising_trained.
Context {L Feat SubModel Base K V X : Type}.
Context {C : Classifier Feat SubModel Base K V X} {N : Normaliser L X}.
Context {A : Answering Feat SubModel X}.

(** X2. On a model that [one_against_rest.train] returned, [apply] raises
    nothing of its own and leaves the model as it is: it returns one of the
    labels of the training set, or it raises what one of the sub-models of
    the model raised on the input. *)
Theorem one_against_rest_apply_in_labels options features (labels : list L) fl
    b m b' feats :
  normalise_spec normaliselabels →
  one_against_rest.train options features labels fl b = (inr m, b') →
  (∃ lab, raising.one_against_rest_model_apply feats m = (inr lab, m) ∧
     lab ∈ labels) ∨
  (∃ k c x, one_against_rest_model.models m !! k = Some c ∧
     sub_answer c feats = inl x ∧
     raising.one_against_rest_model_apply feats m = (inl (Upstream x), m)).
Proof.
  intros Hspec Hrun.
  destruct (rest_train_returns _ _ _ _ _ _ _ Hrun)
    as (nl & ns & Hnorm & _ & Hns & _ & Hlen & _).
  pose proof (normalise_nclasses _ _ _ _ Hspec Hnorm) as Hnames.
  destruct (raising_rest_apply_spec m feats)
    as [(k & x & (c & Hc & Hx & _) & Happ)|(_ & label & _ & _ & Hlt & Happ)].
  - right. eauto 10.
  - left. assert (label < length ns) as [name Hname]%lookup_lt_is_Some by lia.
    rewrite Hns, Hname in Happ. exists name. split; [done|].
    by eapply normalise_name_elem.
Qed.
End raising_trained.

Section raising_one.
Context {L Feat SubModel X : Type} {A : Answering Feat SubModel X}.
Import one_against_one_model.
Implicit Types (m : t L SubModel) (feats : Feat).

(** The tally of a model whose pairs all hold a sub-model: a vote per
    pair, or the exception of a sub-model. *)
Lemma raising_tally_wp feats m :
  pairs_filled m →
  wp (raising.tally feats) m
    (λ votes s, s = m ∧ length votes = nclasses m)
    (λ e s, s = m ∧ ∃ x, e = Upstream x ∧ pair_raises m feats x).
Proof.
  intros Hfilled. unfold raising.tally. apply wp_bind, wp_gets, wp_for_nested.
  set (n := nclasses m).
  apply (wp_for_acc _ _ _ _ (λ pre votes s, s = m ∧ length votes = n)).
  - split; [done|]. by rewrite length_replicate.
  - intros pre [i j] post votes s Hpairs [-> Hlen]. simpl.
    change (pairs n = pre ++ (i, j) :: post) in Hpairs.
    assert (i < j < n) as Hij.
    { apply elem_of_pairs. rewrite Hpairs. apply elem_of_app. right. left. }
    destruct (Hfilled i j Hij) as (c & Hc).
    pose proof Hc as (row & Hrow & Hj)%entry_Some.
    apply wp_bind. unfold raising.pair_apply.
    apply wp_bind, wp_gets, wp_bind, wp_lift. unfold index. rewrite Hrow.
    apply wp_bind, wp_lift. rewrite Hj. apply wp_upstream.
    destruct (sub_answer c feats) as [x|v] eqn:Hx.
    { split; [done|]. exists x. split; [done|]. exists i, j, c. eauto. }
    assert (∃ w, w < n ∧
      (if v then lift (X:=X) (S:=t L SubModel) (incr votes i)
       else lift (incr votes j)) = lift (incr votes w)) as (w & Hw & ->).
    { destruct v; [exists i|exists j]; (split; [lia|done]). }
    destruct (lookup_lt_is_Some_2 votes w) as [v' Hv']; [lia|].
    destruct (incr_spec (X:=X) votes w v' Hv') as (votes' & -> & Hlen' & _).
    apply wp_lift. split; [done|lia].
Qed.
End raising_one.

Section raising_one_trained.
Context {L Feat SubModel Base K V X : Type}.
Context {C : Classifier Feat SubModel Base K V X} {N : Normaliser L X}.
Context {A : Answering Feat SubModel X}.

(** X4. On a model that [one_against_one.train] returned, [apply] raises
    nothing of its own and leaves the model as it is: it returns one of the
    labels of the training set, or it raises what the sub-model of one of
    the pairs raised on the input. *)
Theorem one_against_one_apply_in_labels options features (labels : list L)
    b m b' feats :
  normalise_spec normaliselabels →
  one_against_one.train options features labels b = (inr m, b') →
  (∃ lab, raising.one_against_one_model_apply feats m = (inr lab, m) ∧
     lab ∈ labels) ∨
  (∃ x, pair_raises m feats x ∧
     raising.one_against_one_model_apply feats m = (inl (Upstream x), m)).
Proof.
  intros Hspec Hrun.
  destruct (one_train_filled _ _ _ _ _ _ Hrun) as [Hnc Hfilled].
  destruct (one_train_returns _ _ _ _ _ _ Hrun)
    as (nl & ns & Hnorm & _ & Hns & Hncl & _).
  pose proof (normalise_nclasses _ _ _ _ Hspec Hnorm) as Hnames.
  pose proof (raising_tally_wp feats m Hfilled) as Hwp. unfold wp in Hwp.
  unfold raising.one_against_one_model_apply.
  destruct (raising.tally feats m) as [[e|votes] s] eqn:Htally.
  - right. destruct Hwp as (-> & x & -> & Hx). exists x. split; [done|].
    by rewrite (run_bind_inl _ _ _ _ _ Htally).
  - left. destruct Hwp as [-> Hlen]. rewrite (run_bind_inr _ _ _ _ _ Htally).
    destruct (argmax_spec (X:=X) votes) as (label & Hargmax & Hlabel).
    { intros ->. simpl in Hlen. lia. }
    destruct Hlabel as (rv & Hrv%lookup_lt_Some & _).
    assert (label < length ns) as [name Hname]%lookup_lt_is_Some by lia.
    exists name. split; [|by eapply normalise_name_elem].
    unfold bind, gets, lift. rewrite Hargmax. unfold index. by rewrite Hns, Hname.
Qed.
End raising_one_trained.

(** ** When every sub-model answers

    With sub-models that answer, [sub_answer] being [sub_apply], the
    definitions above are the [apply] of the models. *)

Section agrees.
Context {L Feat SubModel Base K V X : Type}.
Context {C : Classifier Feat SubModel Base K V X}.
Context {A : Answering Feat SubModel X}.
Hypothesis Hanswers : ∀ c feats, sub_answer c feats = inr (sub_apply c feats).

Lemma raising_rest_apply_agrees (m : one_against_rest_model.t L SubModel) feats :
  raising.one_against_rest_model_apply feats m =
  one_against_rest_model.apply feats m.
Proof.
  unfold raising.one_against_rest_model_apply, one_against_rest_model.apply.
  rewrite !(run_bind_inr _ _ m (one_against_rest_model.models m) m) by done.
  assert (∀ ms acc, for_acc (X:=X) ms (λ c vals,
      v <- upstream (λ s, (sub_answer c feats, s)) ;; ret (vals ++ [v])) acc m =
    (inr (acc ++ ((λ c, sub_apply c feats) <$> ms)), m)) as Hvals.
  { induction ms as [|c ms IH]; intros acc.
    - by rewrite app_nil_r.
    - rewrite answers_step, Hanswers, IH. by rewrite <- (assoc_L (++)). }
  unfold raising.answers. by rewrite (run_bind_inr _ _ _ _ _ (Hvals _ [])).
Qed.

Lemma raising_one_apply_agrees (m : one_against_one_model.t L SubModel) feats :
  raising.one_against_one_model_apply feats m =
  one_against_one_model.apply feats m.
Proof.
  assert (∀ s : one_against_one_model.t L SubModel,
    raising.tally feats s = one_against_one_model.tally feats s) as Htally.
  { intros s. unfold raising.tally, one_against_one_model.tally, bind, gets.
    apply for_acc_ext. intros i votes s' _.
    apply for_acc_ext. intros j votes' s'' _.
    unfold bind, raising.pair_apply, one_against_one_model.pair_apply, bind, gets.
    destruct (lift _ s'') as [[e|row] s3]; [done|].
    destruct (lift _ s3) as [[e|[c|]] s4]; [done| |done].
    unfold upstream, ret. by rewrite Hanswers. }
  unfold raising.one_against_one_model_apply, one_against_one_model.apply, bind.
  by rewrite Htally.
Qed.
End agrees.

Lemma one_against_rest_apply_in_labels_witness :
  (∃ lab, raising.one_against_rest_model_apply (A:=memo_answer) 99
     demo.rest_model = (inr lab, demo.rest_model) ∧ lab ∈ demo.labels) ∨
  (∃ k c x, one_against_rest_model.models demo.rest_model !! k = Some c ∧
     sub_answer (Answering:=memo_answer) c 99 = inl x ∧
     raising.one_against_rest_model_apply (A:=memo_answer) 99 demo.rest_model =
       (inl (Upstream x), demo.rest_model)).
Proof.
  apply (one_against_rest_apply_in_labels (N:=memo.normaliser) (A:=memo_answer)
    demo.options demo.features demo.labels true [] demo.rest_model
    demo.trained_base 99).
  - apply dense_normaliser_spec.
  - vm_compute. reflexivity.
Defined.

Lemma one_against_one_apply_in_labels_witness :
  (∃ lab, raising.one_against_one_model_apply (A:=memo_answer) 30
     demo.one_model = (inr lab, demo.one_model) ∧ lab ∈ demo.labels) ∨
  (∃ x, pair_raises (A:=memo_answer) demo.one_model 30 x ∧
     raising.one_against_one_model_apply (A:=memo_answer) 30 demo.one_model =
       (inl (Upstream x), demo.one_model)).
Proof.
  apply (one_against_one_apply_in_labels (N:=memo.normaliser) (A:=memo_answer)
    demo.options demo.features demo.labels [] demo.one_model
    demo.trained_base 30).
  - apply dense_normaliser_spec.
  - vm_compute. reflexivity.
Defined.
